(** * SSE re-assembler ([streamQuery]) and the UI log list ([appendLog])

    Shallow embedding of two pieces of the front-end:

    - [streamQuery] (the SSE streaming API of the API client, in
      src/frontend/src/features/inspector/InspectorView.tsx): the [fetch] +
      [ReadableStream] loop that buffers decoded text, splits it on blank
      lines, scans [event: ] / [data: ] lines, JSON-decodes the payload and
      calls [onEvent];
    - [appendLog] (src/frontend/src/App.tsx): the bounded list of log
      entries.

    JavaScript strings are sequences of UTF-16 code units; they are modelled
    as [list N].  The platform functions the code calls ([JSON.parse], the
    callback, [fetch], [reader.read]) are parameters or inputs of the model. *)

From Stdlib Require Import Strings.String Strings.Ascii Numbers.DecimalString.
From Stdlib Require Import List NArith Bool Arith Lia.
Import ListNotations.

(* ------------------------------------------------------------------ *)
(** ** JavaScript strings *)

Definition code_unit : Type := N.
Definition str : Type := list code_unit.

(** A string literal of the source, as code units. *)
Definition lit (s : string) : str :=
  map N_of_ascii (list_ascii_of_string s).

Definition NL : code_unit := 10%N.

(** [s.startsWith(prefix)] *)
Fixpoint startsWith (s prefix : str) {struct prefix} : bool :=
  match prefix with
  | [] => true
  | p :: prefix' =>
      match s with
      | [] => false
      | c :: s' => N.eqb c p && startsWith s' prefix'
      end
  end.

(** [s.slice(n)] for a non-negative [n]. *)
Definition slice (n : nat) (s : str) : str := skipn n s.

(** White space and line terminators, the code units [trim] strips
    (ECMAScript WhiteSpace and LineTerminator). *)
Definition is_space (c : code_unit) : bool :=
  ((9 <=? c) && (c <=? 13) || (c =? 32) || (c =? 160) || (c =? 5760)
   || (8192 <=? c) && (c <=? 8202) || (c =? 8232) || (c =? 8233)
   || (c =? 8239) || (c =? 8287) || (c =? 12288) || (c =? 65279))%N.

Fixpoint trimStart (s : str) : str :=
  match s with
  | [] => []
  | c :: s' => if is_space c then trimStart s' else s
  end.

Definition trimEnd (s : str) : str := rev (trimStart (rev s)).

(** [s.trim()] *)
Definition trim (s : str) : str := trimEnd (trimStart s).

(** Truthiness of a string: [if (s)] holds for the non-empty ones. *)
Definition truthy (s : str) : bool :=
  match s with
  | [] => false
  | _ :: _ => true
  end.

(** [a === b] on strings. *)
Fixpoint str_eqb (a b : str) : bool :=
  match a, b with
  | [], [] => true
  | x :: a', y :: b' => N.eqb x y && str_eqb a' b'
  | _, _ => false
  end.

(** [s.split(sep)]: the pieces between the successive left-most,
    non-overlapping occurrences of [sep].  [split_from sep skip s] scans [s]
    with [skip] code units of an occurrence just found still to pass over; its
    first piece is the one being collected. *)
Definition push_front (c : code_unit) (pieces : list str) : list str :=
  match pieces with
  | [] => [[c]]
  | p :: ps => (c :: p) :: ps
  end.

Fixpoint split_from (sep : str) (skip : nat) (s : str) : list str :=
  match s with
  | [] => [[]]
  | c :: s' =>
      match skip with
      | S k => split_from sep k s'
      | O =>
          if startsWith s sep
          then [] :: split_from sep (length sep - 1) s'
          else push_front c (split_from sep 0 s')
      end
  end.

Definition split (sep s : str) : list str :=
  match sep with
  | [] => map (fun c => [c]) s
  | _ :: _ => split_from sep 0 s
  end.

(** [pieces.join(sep)] *)
Fixpoint join (sep : str) (pieces : list str) : str :=
  match pieces with
  | [] => []
  | [p] => p
  | p :: ps => p ++ sep ++ join sep ps
  end.

(** Decimal text of a number, as a template literal prints it. *)
Definition decimal (n : N) : str :=
  lit (NilEmpty.string_of_uint (N.to_uint n)).

(* ------------------------------------------------------------------ *)
(** ** The log list of App.tsx *)

Module App.

Inductive LogSource := frontend | backend.

Record LogEntry := {
  id : str;
  source : LogSource;
  message : str;
  timestamp : N
}.

(** [list.slice(-k)]: the last [k] elements (all of them when there are
    fewer). *)
Definition slice_last {A : Type} (k : nat) (l : list A) : list A :=
  skipn (length l - k) l.

(** The state updater that [appendLog] hands to [setLogs].  [now] is what
    [Date.now()] returns, [rnd] the text of
    [Math.random().toString(16).slice(2)], [date] the [new Date()]. *)
Definition appendLog (now : N) (rnd : str) (date : N)
    (source : LogSource) (message : str) (prev : list LogEntry)
    : list LogEntry :=
  let entry := {| id := decimal now ++ lit "-" ++ rnd;
                  source := source;
                  message := message;
                  timestamp := date |} in
  let next := prev ++ [entry] in
  if 300 <? length next then slice_last 300 next else next.

End App.

(* ------------------------------------------------------------------ *)
(** ** The SSE stream reader *)

(** What a [catch] clause of [streamQuery] looks at in a thrown value. *)
Record thrown := {
  instanceof_Error : bool;
  name : str;
  message : str
}.

(** [new Error(msg)] *)
Definition new_Error (msg : str) : thrown :=
  {| instanceof_Error := true; name := lit "Error"; message := msg |}.

(** How one [await reader.read()] settles; [decoder.decode(value, {stream:
    true})] has been applied to the value of a chunk. *)
Inductive read_result :=
| Chunk (text : str)
| Done
| ReadRejected (error : thrown).

(** How a piece of the asynchronous code stands after the reads that have
    settled so far. *)
Inductive status :=
| Awaiting
| Returned
| Threw (error : thrown).

Record Response := {
  ok : bool;
  http_status : N;
  body : option (list read_result)
}.

Inductive fetch_result :=
| FetchPending
| FetchRejected (error : thrown)
| FetchResolved (response : Response).

Definition event_prefix : str := lit "event: ".
Definition data_prefix : str := lit "data: ".
Definition AbortError : str := lit "AbortError".

Section StreamQuery.

(** The values [JSON.parse] produces. *)
Variable JSValue : Type.
(** [JSON.parse]; [None] when it throws. *)
Variable JSON_parse : str -> option JSValue.
(** The object literal [{ error: msg }]. *)
Variable error_object : str -> JSValue.

Record SSEEvent := {
  event : str;
  data : JSValue
}.

(** The callback; [Some e] when the call throws [e]. *)
Variable onEvent : SSEEvent -> option thrown.

Definition error_event (msg : str) : SSEEvent :=
  {| event := lit "error"; data := error_object msg |}.

Definition parse_error_event : SSEEvent :=
  error_event (lit "Failed to parse SSE data").

(** One turn of [for (const line of lines)] on the pair [(event, data)]. *)
Definition scan_line (acc : str * str) (line : str) : str * str :=
  let '(event, data) := acc in
  if startsWith line event_prefix then (trim (slice 7 line), data)
  else if startsWith line data_prefix then (event, trim (slice 6 line))
  else (event, data).

Definition scan_lines (lines : list str) : str * str :=
  fold_left scan_line lines (lit "message", []).

(** The body of [for (const message of messages)]: the callbacks made, in
    order, and the exception that leaves the body, if any. *)
Definition handle_message (message : str) : list SSEEvent * option thrown :=
  if negb (truthy (trim message)) then ([], None)
  else
    let lines := split [NL] message in
    let '(event, data) := scan_lines lines in
    if truthy data then
      match JSON_parse data with
      | Some parsed =>
          let ev := {| event := event; data := parsed |} in
          match onEvent ev with
          | None => ([ev], None)
          | Some _ => ([ev; parse_error_event], onEvent parse_error_event)
          end
      | None => ([parse_error_event], onEvent parse_error_event)
      end
    else ([], None).

(** The event name and the payload text the line scan leaves, and the
    callbacks made for a message. *)
Definition event_name_of (message : str) : str :=
  fst (scan_lines (split [NL] message)).

Definition payload_of (message : str) : str :=
  snd (scan_lines (split [NL] message)).

Definition callbacks_of (message : str) : list SSEEvent :=
  fst (handle_message message).

Fixpoint for_messages (messages : list str)
    : list SSEEvent * option thrown :=
  match messages with
  | [] => ([], None)
  | message :: rest =>
      match handle_message message with
      | (evs, Some e) => (evs, Some e)
      | (evs, None) =>
          let '(evs', r) := for_messages rest in (evs ++ evs', r)
      end
  end.

(** [while (true)] over the reads that have settled, from a given
    [buffer]: the callbacks made, how the loop stands, and the buffer. *)
Fixpoint read_loop (reads : list read_result) (buffer : str)
    : list SSEEvent * status * str :=
  match reads with
  | [] => ([], Awaiting, buffer)
  | Done :: _ => ([], Returned, buffer)
  | ReadRejected e :: _ => ([], Threw e, buffer)
  | Chunk chunk :: reads' =>
      let buffer := buffer ++ chunk in
      let messages := split [NL; NL] buffer in
      let buffer := last messages [] in
      let messages := removelast messages in
      match for_messages messages with
      | (evs, Some e) => (evs, Threw e, buffer)
      | (evs, None) =>
          let '(evs', st, buffer') := read_loop reads' buffer in
          (evs ++ evs', st, buffer')
      end
  end.

(** The handler passed to [.then]. *)
Definition on_response (response : Response) : list SSEEvent * status :=
  if negb (ok response) then
    ([], Threw (new_Error (lit "HTTP " ++ decimal (http_status response))))
  else
    match body response with
    | None => ([], Threw (new_Error (lit "No response body")))
    | Some reads =>
        let '(evs, st, _) := read_loop reads [] in
        match st with
        | Threw error =>
            if instanceof_Error error
               && negb (str_eqb (name error) AbortError)
            then
              let ev := error_event (message error) in
              match onEvent ev with
              | None => (evs ++ [ev], Returned)
              | Some e => (evs ++ [ev], Threw e)
              end
            else (evs, Returned)
        | _ => (evs, st)
        end
    end.

(** The handler passed to [.catch]. *)
Definition on_rejection (error : thrown) : list SSEEvent * status :=
  if negb (str_eqb (name error) AbortError) then
    let ev := error_event (message error) in
    match onEvent ev with
    | None => ([ev], Returned)
    | Some e => ([ev], Threw e)
    end
  else ([], Returned).

(** The promise chain [fetch(...).then(...).catch(...)] that [streamQuery]
    starts before it returns the cancel function: the callbacks made and
    how the chain stands.  Nothing of it reaches the caller. *)
Definition streamQuery (fetched : fetch_result) : list SSEEvent * status :=
  match fetched with
  | FetchPending => ([], Awaiting)
  | FetchRejected error => on_rejection error
  | FetchResolved response =>
      match on_response response with
      | (evs, Threw error) =>
          let '(evs', st) := on_rejection error in (evs ++ evs', st)
      | r => r
      end
  end.

End StreamQuery.

Arguments Build_SSEEvent {JSValue} event data.
Arguments event {JSValue} s.
Arguments data {JSValue} s.
Arguments error_event {JSValue} error_object msg.
Arguments parse_error_event {JSValue} error_object.
Arguments handle_message {JSValue} JSON_parse error_object onEvent message.
Arguments callbacks_of {JSValue} JSON_parse error_object onEvent message.
Arguments for_messages {JSValue} JSON_parse error_object onEvent messages.
Arguments read_loop {JSValue} JSON_parse error_object onEvent reads buffer.
Arguments on_response {JSValue} JSON_parse error_object onEvent response.
Arguments on_rejection {JSValue} error_object onEvent error.
Arguments streamQuery {JSValue} JSON_parse error_object onEvent fetched.

(** The complete messages of a buffer and its incomplete tail. *)
Definition complete_messages (s : str) : list str :=
  removelast (split [NL; NL] s).

Definition trailing (s : str) : str := last (split [NL; NL] s) [].

(** Lines the scan passes over. *)
Definition no_event_line (line : str) : Prop :=
  startsWith line event_prefix = false.

Definition no_data_line (line : str) : Prop :=
  startsWith line data_prefix = false.

(** How the read loop stands once a read has settled this way. *)
Definition settle (r : read_result) : status :=
  match r with
  | Chunk _ => Awaiting
  | Done => Returned
  | ReadRejected e => Threw e
  end.

(** A response with a body, as [fetch] resolves to. *)
Definition streaming (code : N) (reads : list read_result) : fetch_result :=
  FetchResolved {| ok := true; http_status := code; body := Some reads |}.

(** A small instance of the parameters, to run the model on examples: JSON
    values, and a parser that knows a few texts and throws on the rest. *)
Inductive json :=
| JNull
| JBool (b : bool)
| JEmptyObject
| JErrorObject (msg : str).

Definition sample_parse (s : str) : option json :=
  if str_eqb s (lit "null") then Some JNull
  else if str_eqb s (lit "true") then Some (JBool true)
  else if str_eqb s (lit "false") then Some (JBool false)
  else if str_eqb s (lit "{}") then Some JEmptyObject
  else None.

(** A callback that always returns. *)
Definition quiet (ev : SSEEvent json) : option thrown := None.

(** A line of text with its line feed. *)
Definition ln (s : string) : str := lit s ++ [NL].

(** Three reads that cut the text inside a delimiter and inside a message,
    and leave an unfinished message. *)
Definition sample_chunks : list str :=
  [ln "event: a" ++ ln "data: {}";
   [NL] ++ lit "data: tr";
   ln "ue" ++ [NL] ++ ln "event: ping" ++ [NL] ++ lit "data: nu"].

Definition sse (name : string) (value : json) : SSEEvent json :=
  {| event := lit name; data := value |}.

Definition abort_error : thrown :=
  {| instanceof_Error := true;
     name := lit "AbortError";
     message := lit "The user aborted a request." |}.

(** [sep] occurs in [s]: [s.includes(sep)]. *)
Definition occurs (sep s : str) : Prop :=
  exists front back, s = front ++ sep ++ back.

(** The rejections a [catch] of the read loop reports. *)
Definition reported (error : thrown) : bool :=
  instanceof_Error error && negb (str_eqb (name error) AbortError).

(** One call [appendLog(source, message)] with what the clock and the random
    generator gave it, the entry it makes, and a run of such calls, each
    state update applied in turn. *)
Record LogCall := {
  call_now : N;
  call_rnd : str;
  call_date : N;
  call_source : App.LogSource;
  call_message : str
}.

Definition logged (c : LogCall) : App.LogEntry :=
  {| App.id := decimal (call_now c) ++ lit "-" ++ call_rnd c;
     App.source := call_source c;
     App.message := call_message c;
     App.timestamp := call_date c |}.

Definition appendLogs (calls : list LogCall) (prev : list App.LogEntry)
    : list App.LogEntry :=
  fold_left
    (fun logs c =>
       App.appendLog (call_now c) (call_rnd c) (call_date c)
         (call_source c) (call_message c) logs)
    calls prev.

(* ------------------------------------------------------------------ *)
(** ** The logger (utils/logger) *)

Module LogLevel.
Definition DEBUG : N := 0.
Definition INFO : N := 1.
Definition WARN : N := 2.
Definition ERROR : N := 3.
Definition NONE : N := 99.
End LogLevel.

(** What [LogLevel[key]] can be: a member of the enum, the name the
    compiled enum maps a number back to, or a property the enum object
    inherits from [Object.prototype] (a function or an object: truthy, and
    not a number in a comparison). *)
Inductive enum_property :=
| Level (n : N)
| Name (s : str)
| Inherited.

Section Logger.

(** The property names [Object.prototype] defines. *)
Variable inherited : str -> bool.

Definition LogLevel_get (key : str) : option enum_property :=
  if str_eqb key (lit "DEBUG") then Some (Level LogLevel.DEBUG)
  else if str_eqb key (lit "INFO") then Some (Level LogLevel.INFO)
  else if str_eqb key (lit "WARN") then Some (Level LogLevel.WARN)
  else if str_eqb key (lit "ERROR") then Some (Level LogLevel.ERROR)
  else if str_eqb key (lit "NONE") then Some (Level LogLevel.NONE)
  else if str_eqb key (lit "0") then Some (Name (lit "DEBUG"))
  else if str_eqb key (lit "1") then Some (Name (lit "INFO"))
  else if str_eqb key (lit "2") then Some (Name (lit "WARN"))
  else if str_eqb key (lit "3") then Some (Name (lit "ERROR"))
  else if str_eqb key (lit "99") then Some (Name (lit "NONE"))
  else if inherited key then Some Inherited
  else None.

(** Truthiness of [LogLevel[key]]; [None] is [undefined]. *)
Definition enum_truthy (v : option enum_property) : bool :=
  match v with
  | None => false
  | Some (Level n) => negb (n =? 0)%N
  | Some (Name s) => truthy s
  | Some Inherited => true
  end.

Record Logger := {
  level : enum_property;
  enableTimestamp : bool;
  enableColors : bool
}.

(** [new Logger()], given [import.meta.env.VITE_LOG_LEVEL]. *)
Definition Logger_new (VITE_LOG_LEVEL : option str) : Logger :=
  let envLevel :=
    match VITE_LOG_LEVEL with
    | Some s => if truthy s then s else lit "INFO"
    | None => lit "INFO"
    end in
  {| level :=
       match LogLevel_get envLevel with
       | Some v => if enum_truthy (Some v) then v else Level LogLevel.INFO
       | None => Level LogLevel.INFO
       end;
     enableTimestamp := true;
     enableColors := true |}.

(** [level >= this.level]: false when [this.level] is not a number. *)
Definition shouldLog (this : Logger) (lvl : N) : bool :=
  match level this with
  | Level n => (n <=? lvl)%N
  | Name _ => false
  | Inherited => false
  end.

Definition setLevel (this : Logger) (lvl : N) : Logger :=
  {| level := Level lvl;
     enableTimestamp := enableTimestamp this;
     enableColors := enableColors this |}.

End Logger.

(** [s.padStart(targetLength, padString)] *)
Fixpoint pad_cycle (k : nat) (padString rest : str) : str :=
  match k with
  | O => []
  | S k' =>
      match rest with
      | c :: rest' => c :: pad_cycle k' padString rest'
      | [] =>
          match padString with
          | [] => []
          | c :: rest' => c :: pad_cycle k' padString rest'
          end
      end
  end.

Definition padStart (targetLength : nat) (padString s : str) : str :=
  pad_cycle (targetLength - length s) padString padString ++ s.

(** [formatTimestamp], from what the getters of [new Date()] return. *)
Definition formatTimestamp (hours minutes seconds ms : N) : str :=
  padStart 2 (lit "0") (decimal hours) ++ lit ":"
    ++ padStart 2 (lit "0") (decimal minutes) ++ lit ":"
    ++ padStart 2 (lit "0") (decimal seconds) ++ lit "."
    ++ padStart 3 (lit "0") (decimal ms).

(** [formatMessage(level, message)] of a logger, at a given time. *)
Definition formatMessage (this : Logger) (hours minutes seconds ms : N)
    (lvl message : str) : list str :=
  (if enableTimestamp this
   then [lit "[" ++ formatTimestamp hours minutes seconds ms ++ lit "]"]
   else [])
    ++ [lit "[" ++ lvl ++ lit "]"; message].

(** [P] holds of every number below [k]. *)
Definition all_below (k : nat) (P : N -> bool) : bool :=
  forallb (fun i => P (N.of_nat i)) (seq 0 k).

(* ------------------------------------------------------------------ *)
(** ** JavaScript values and the inspector's reading of stream events *)

(** The code units of a literal of the source that is not ASCII: the file
    holds it in UTF-8, a JavaScript string in UTF-16. *)
Fixpoint utf16 (bytes : list N) : str :=
  match bytes with
  | [] => []
  | b0 :: rest =>
      if (b0 <? 128)%N then b0 :: utf16 rest
      else if (b0 <? 224)%N then
        match rest with
        | b1 :: rest' => ((b0 - 192) * 64 + (b1 - 128))%N :: utf16 rest'
        | _ => []
        end
      else if (b0 <? 240)%N then
        match rest with
        | b1 :: b2 :: rest' =>
            ((b0 - 224) * 4096 + (b1 - 128) * 64 + (b2 - 128))%N
              :: utf16 rest'
        | _ => []
        end
      else
        match rest with
        | b1 :: b2 :: b3 :: rest' =>
            let cp := ((b0 - 240) * 262144 + (b1 - 128) * 4096
                       + (b2 - 128) * 64 + (b3 - 128) - 65536)%N in
            (55296 + cp / 1024)%N :: (56320 + cp mod 1024)%N :: utf16 rest'
        | _ => []
        end
  end.

Definition literal (s : string) : str := utf16 (lit s).

Module Inspector.

(** What a call gives: a value, or the [TypeError] of a property read on
    [null] or [undefined]. *)
Inductive result (A : Type) :=
| Ok (a : A)
| TypeError.

Arguments Ok {A} a.
Arguments TypeError {A}.

Inductive ConversationActor :=
| actor_user
| actor_agent
| actor_tool
| actor_remote
| actor_system
| actor_unknown.

Definition MAX_BODY_LENGTH : nat := 600.

Section JSValues.

(** JavaScript numbers. *)
Context {number : Type}.

Inductive value :=
| VUndefined
| VNull
| VBool (b : bool)
| VNumber (n : number)
| VString (s : str)
| VArray (items : list value)
| VObject (props : list (str * value))
| VFunction.

(** [key in v] and [v[key]] for a value that is not [null] or [undefined]:
    own properties and what the prototype chain adds. *)
Variable has_property : value -> str -> bool.
Variable get_property : value -> str -> value.
(** [s.toLowerCase()] *)
Variable toLowerCase : str -> str.
(** [JSON.stringify(v, null, 2)]; [None] when it throws or gives
    [undefined]. *)
Variable JSON_stringify : value -> option str.
(** Truthiness of a number, and a number in a template literal. *)
Variable number_truthy : number -> bool.
Variable number_toString : number -> str.

(** [typeof v === "object"] *)
Definition typeof_object (v : value) : bool :=
  match v with
  | VNull | VArray _ | VObject _ => true
  | _ => false
  end.

Definition truthy_value (v : value) : bool :=
  match v with
  | VUndefined | VNull => false
  | VBool b => b
  | VNumber n => number_truthy n
  | VString s => truthy s
  | VArray _ | VObject _ | VFunction => true
  end.

Definition nullish (v : value) : bool :=
  match v with
  | VUndefined | VNull => true
  | _ => false
  end.

(** [v?.key] *)
Definition optional_get (v : value) (key : str) : value :=
  if nullish v then VUndefined else get_property v key.

(** The inner loop of [pickDeepString]: follow the keys of a path. *)
Fixpoint walk (current : value) (path : list str) : value :=
  match path with
  | [] => current
  | key :: path' =>
      if truthy_value current && typeof_object current
         && has_property current key
      then walk (get_property current key) path'
      else VUndefined
  end.

(** [typeof v === "string" && v.trim()], and then [v.trim()]. *)
Definition nonblank_string (v : value) : option str :=
  match v with
  | VString s => if truthy (trim s) then Some (trim s) else None
  | _ => None
  end.

Fixpoint pickDeepString (source : value) (paths : list (list str))
    : option str :=
  match paths with
  | [] => None
  | path :: paths' =>
      match nonblank_string (walk source path) with
      | Some s => Some s
      | None => pickDeepString source paths'
      end
  end.

Definition option_list {A : Type} (o : option A) : list A :=
  match o with
  | Some a => [a]
  | None => []
  end.

(** What one element of [content.parts] adds to [parts]. *)
Definition part_text (part : value) : list str :=
  if truthy_value part && typeof_object part
     && has_property part (lit "text")
  then option_list (nonblank_string (get_property part (lit "text")))
  else [].

Definition directTexts : list str :=
  [lit "message"; lit "text"; lit "response"; lit "output"; lit "result"].

Definition extractContentText (payload : value) : result (option str) :=
  if nullish payload then TypeError
  else
    let content := get_property payload (lit "content") in
    let parts :=
      match optional_get content (lit "parts") with
      | VArray items => flat_map part_text items
      | _ => option_list (nonblank_string content)
      end in
    let parts :=
      parts
        ++ flat_map
             (fun key => option_list (nonblank_string (get_property payload key)))
             directTexts in
    if 0 <? length parts then Ok (Some (join [NL; NL] parts)) else Ok None.

Definition stringifyFallback (payload : value) : str :=
  match JSON_stringify payload with
  | Some raw =>
      if MAX_BODY_LENGTH <? length raw
      then firstn MAX_BODY_LENGTH raw ++ literal "…"
      else raw
  | None => literal "(payload 미리보기 생성 실패)"
  end.

Record StreamEvent := {
  sequence : number;
  event_name : str;
  payload : value;
  event_timestamp : number
}.

Record ConversationEntry := {
  entry_id : str;
  actor : ConversationActor;
  title : str;
  body : str;
  entry_timestamp : number;
  badges : list str;
  raw : value
}.

Definition remoteAgent_paths : list (list str) :=
  [[lit "remoteAgent"]; [lit "remote_agent"]; [lit "remoteAgentId"];
   [lit "remote_agent_id"]; [lit "agentName"]; [lit "agent_id"];
   [lit "routing"; lit "agent"]; [lit "a2a"; lit "agentName"];
   [lit "target"; lit "agentId"]; [lit "targetAgent"]].

Definition toolName_paths : list (list str) :=
  [[lit "toolName"]; [lit "tool_name"]; [lit "toolId"]; [lit "tool_id"];
   [lit "tool"; lit "name"]; [lit "toolInvocation"; lit "toolName"];
   [lit "toolCall"; lit "name"]; [lit "action"; lit "toolName"];
   [lit "action"; lit "tool"]; [lit "metadata"; lit "tool"]].

Definition status_paths : list (list str) :=
  [[lit "status"]; [lit "state"]; [lit "phase"]].

(** Truthiness of a string that may be [undefined] or [null]. *)
Definition given (o : option str) : bool :=
  match o with
  | Some s => truthy s
  | None => false
  end.

Definition is_author (author : option str) (who : string) : bool :=
  match author with
  | Some a => str_eqb a (lit who)
  | None => false
  end.

Definition is_unknown (a : ConversationActor) : bool :=
  match a with
  | actor_unknown => true
  | _ => false
  end.

(** [badges.includes(badge)] *)
Definition includes (badges : list str) (badge : str) : bool :=
  existsb (str_eqb badge) badges.

(** The [if] chain of [deriveConversationEntry] on [actor] and [title]. *)
Definition actor_by_author (name : str) (author remoteAgent toolName : option str)
    : ConversationActor * str :=
  if is_author author "user" then (actor_user, literal "사용자 프롬프트")
  else if is_author author "agent" || is_author author "assistant"
  then (actor_agent, literal "에이전트 응답")
  else if is_author author "tool" then
    (actor_tool,
     match toolName with
     | Some t => if truthy t then literal "툴 호출 · " ++ t else literal "툴 호출"
     | None => literal "툴 호출"
     end)
  else if is_author author "system" then (actor_system, literal "시스템 알림")
  else
    match remoteAgent with
    | Some r =>
        if truthy r then (actor_remote, literal "원격 에이전트 · " ++ r)
        else
          match toolName with
          | Some t =>
              if truthy t then (actor_tool, literal "툴 호출 · " ++ t)
              else (actor_unknown, name)
          | None => (actor_unknown, name)
          end
    | None =>
        match toolName with
        | Some t =>
            if truthy t then (actor_tool, literal "툴 호출 · " ++ t)
            else (actor_unknown, name)
        | None => (actor_unknown, name)
        end
    end.

(** The two [if (actor === "unknown" && ...)] that follow the chain. *)
Definition actor_fallbacks (chosen : ConversationActor * str)
    (remoteAgent toolName : option str) : ConversationActor * str :=
  let chosen :=
    match remoteAgent with
    | Some r =>
        if is_unknown (fst chosen) && truthy r
        then (actor_remote, literal "원격 에이전트 · " ++ r)
        else chosen
    | None => chosen
    end in
  match toolName with
  | Some t =>
      if is_unknown (fst chosen) && truthy t
      then (actor_tool, literal "툴 호출 · " ++ t)
      else chosen
  | None => chosen
  end.

Definition entry_badges (payload : value) (remoteAgent toolName : option str)
    : list str :=
  let badges :=
    if truthy_value (get_property payload (lit "turnComplete"))
    then [lit "turn-complete"] else [] in
  let status := pickDeepString payload status_paths in
  let badges := if given status then badges ++ option_list status else badges in
  let badges :=
    if given remoteAgent && negb (includes badges (lit "remote"))
    then badges ++ [lit "remote"] else badges in
  if given toolName && negb (includes badges (lit "tool"))
  then badges ++ [lit "tool"] else badges.

(** The author [deriveConversationEntry] reads from a payload. *)
Definition author_of (payload : value) : option str :=
  match get_property payload (lit "author") with
  | VString s => Some (toLowerCase s)
  | _ => None
  end.

Definition deriveConversationEntry (event : StreamEvent)
    : result (option ConversationEntry) :=
  if negb (str_eqb (event_name event) (lit "adk.event")) then Ok None
  else
    let payload := payload event in
    if nullish payload then TypeError
    else
      let author := author_of payload in
      let remoteAgent := pickDeepString payload remoteAgent_paths in
      let toolName := pickDeepString payload toolName_paths in
      let chosen :=
        actor_fallbacks
          (actor_by_author (event_name event) author remoteAgent toolName)
          remoteAgent toolName in
      match extractContentText payload with
      | TypeError => TypeError
      | Ok extracted =>
          let body :=
            match extracted with
            | Some t =>
                if truthy t && truthy (trim t) then trim t
                else stringifyFallback payload
            | None => stringifyFallback payload
            end in
          Ok (Some {| entry_id := number_toString (sequence event);
                      actor := fst chosen;
                      title := snd chosen;
                      body := body;
                      entry_timestamp := event_timestamp event;
                      badges := entry_badges payload remoteAgent toolName;
                      raw := payload |})
      end.

End JSValues.

Arguments value : clear implicits.
Arguments StreamEvent : clear implicits.
Arguments ConversationEntry : clear implicits.

End Inspector.

(** A string that [trim] leaves as it is. *)
Definition tight (s : str) : Prop := trimStart s = s /\ trimEnd s = s.

(* ------------------------------------------------------------------ *)
(** ** Template categories of the inspector *)

Module Templates.

Inductive TemplateCategory :=
| security
| kpi
| product
| governance
| other.

(** What [TEMPLATE_CATEGORY_MAP[id] ?? "other"] can be: a category, or a
    property the map inherits from [Object.prototype]. *)
Inductive looked_up :=
| Category (c : TemplateCategory)
| Foreign.

Inductive TemplateFilterValue :=
| all
| only (c : TemplateCategory).

Definition TEMPLATE_CATEGORY_MAP : list (str * TemplateCategory) :=
  [(lit "risk_app_actions", security);
   (lit "anti_phishing_packages", security);
   (lit "security_permission_anomalies", security);
   (lit "security_risk_level_trend", security);
   (lit "engine_compare_summary", security);
   (lit "os_usage_daily", kpi);
   (lit "engagement_daily_overview", kpi);
   (lit "retention_cohort_daily", kpi);
   (lit "version_performance_summary", kpi)].

Fixpoint own (id : str) (map : list (str * TemplateCategory))
    : option TemplateCategory :=
  match map with
  | [] => None
  | (k, c) :: map' => if str_eqb id k then Some c else own id map'
  end.

(** A template with its category; [meta] is what else it carries. *)
Record CategorizedTemplate (A : Type) := {
  id : str;
  meta : A;
  category : looked_up
}.

Arguments id {A} c.
Arguments meta {A} c.
Arguments category {A} c.

Section Categories.

(** The property names [Object.prototype] defines. *)
Variable inherited : str -> bool.

Definition getTemplateCategory (id : str) : looked_up :=
  match own id TEMPLATE_CATEGORY_MAP with
  | Some c => Category c
  | None => if inherited id then Foreign else Category other
  end.

Definition categorize {A : Type} (rawTemplates : list (str * A))
    : list (CategorizedTemplate A) :=
  map (fun t => {| id := fst t; meta := snd t;
                   category := getTemplateCategory (fst t) |})
    rawTemplates.

Definition same_category (v : looked_up) (c : TemplateCategory) : bool :=
  match v, c with
  | Category security, security
  | Category kpi, kpi
  | Category product, product
  | Category governance, governance
  | Category other, other => true
  | _, _ => false
  end.

Definition filteredTemplates {A : Type} (templateFilter : TemplateFilterValue)
    (templates : list (CategorizedTemplate A))
    : list (CategorizedTemplate A) :=
  match templateFilter with
  | all => templates
  | only c => filter (fun t => same_category (category t) c) templates
  end.

End Categories.

End Templates.

(* ------------------------------------------------------------------ *)
(** ** Reading agents from a response (API client) *)

Module Api.

Import Inspector.

Record AgentMetadata := {
  key : str;
  display_name : str;
  description : str;
  focus : str;
  strengths : option (list str);
  keywords : option (list str)
}.

Record AgentSummary := {
  metadata : AgentMetadata;
  active : bool
}.

Section Agents.

Context {number : Type}.
Variable get_property : value number -> str -> value number.
Variable toLowerCase : str -> str.

(** [typeof v === 'object' && v !== null] *)
Definition isRecord (v : value number) : bool :=
  match v with
  | VArray _ | VObject _ => true
  | _ => false
  end.

Definition toStringArray (v : value number) : list str :=
  match v with
  | VArray items =>
      flat_map
        (fun item =>
           match item with
           | VString s => if 0 <? length (trim s) then [s] else []
           | _ => []
           end)
        items
  | _ => []
  end.

(** [typeof v === 'string' ? v : undefined] *)
Definition string_or_undefined (v : value number) : option str :=
  match v with
  | VString s => Some s
  | _ => None
  end.

Definition non_empty (l : list str) : option (list str) :=
  if 0 <? length l then Some l else None.

Definition toAgentMetadata (v : value number) : option AgentMetadata :=
  if negb (isRecord v) then None
  else
    let key := string_or_undefined (get_property v (lit "key")) in
    let displayName :=
      string_or_undefined (get_property v (lit "display_name")) in
    let description :=
      string_or_undefined (get_property v (lit "description")) in
    let focus := string_or_undefined (get_property v (lit "focus")) in
    match key, displayName, description, focus with
    | Some k, Some n, Some d, Some f =>
        if negb (truthy k) || negb (truthy n) || negb (truthy d)
           || negb (truthy f)
        then None
        else
          let strengths := toStringArray (get_property v (lit "strengths")) in
          let keywords := toStringArray (get_property v (lit "keywords")) in
          Some {| key := k; display_name := n; description := d; focus := f;
                  strengths := non_empty strengths;
                  keywords := non_empty keywords |}
    | _, _, _, _ => None
    end.

Definition toAgentSummary (v : value number) : option AgentSummary :=
  if negb (isRecord v) then None
  else
    match toAgentMetadata v with
    | None => None
    | Some m =>
        let active :=
          match get_property v (lit "active") with
          | VBool b => b
          | VString s => str_eqb (toLowerCase s) (lit "true")
          | _ => true
          end in
        Some {| metadata := m; active := active |}
    end.

(** [getAgents], from the body of the response. *)
Definition getAgents (data : value number) : list AgentSummary :=
  match data with
  | VArray items => flat_map (fun v => option_list (toAgentSummary v)) items
  | _ => []
  end.

End Agents.

End Api.

(* ------------------------------------------------------------------ *)
(** ** Instances for the examples *)

(** A callback that throws on every event but the error event. *)
Definition touchy (ev : SSEEvent json) : option thrown :=
  if str_eqb (event ev) (lit "error") then None
  else Some (new_Error (lit "handler failed")).

(** A text whose messages end with CR LF CR LF. *)
Definition crlf_chunks : list str :=
  [lit "data: {}" ++ [13; 10; 13; 10]%N;
   lit "data: true" ++ [13; 10; 13; 10]%N].

Definition network_error : thrown :=
  {| instanceof_Error := true;
     name := lit "TypeError";
     message := lit "network error" |}.

Module Samples.

Import Inspector.

(** Own properties of a plain object: what [in] and a property read are
    for keys that no prototype defines. *)
Fixpoint own_get (props : list (str * value N)) (key : str) : option (value N) :=
  match props with
  | [] => None
  | (k, v) :: props' => if str_eqb key k then Some v else own_get props' key
  end.

Definition has_property (v : value N) (key : str) : bool :=
  match v with
  | VObject props =>
      match own_get props key with Some _ => true | None => false end
  | _ => false
  end.

Definition get_property (v : value N) (key : str) : value N :=
  match v with
  | VObject props =>
      match own_get props key with Some x => x | None => VUndefined end
  | _ => VUndefined
  end.

(** [toLowerCase] on ASCII text. *)
Definition toLowerCase (s : str) : str :=
  map (fun c => if (65 <=? c)%N && (c <=? 90)%N then (c + 32)%N else c) s.

Definition number_truthy (n : N) : bool := negb (n =? 0)%N.

(** A stand-in for [JSON.stringify] that gives the same short text for
    every value. *)
Definition JSON_stringify (v : value N) : option str := Some (lit "{}").

(** A payload of a tool call by a remote agent. *)
Definition tool_payload : value N :=
  VObject
    [(lit "author", VString (lit "Tool"));
     (lit "toolCall", VObject [(lit "name", VString (lit " run_query "))]);
     (lit "remote_agent", VString (lit "bq"));
     (lit "status", VString (lit "  "));
     (lit "state", VString (lit "running"));
     (lit "content",
      VObject [(lit "parts",
                VArray [VObject [(lit "text", VString (lit " rows: 3 "))];
                        VNull;
                        VObject [(lit "text", VString (lit "  "))]])]);
     (lit "output", VString (lit "done"))].

Definition tool_event : StreamEvent N :=
  {| sequence := 7%N;
     event_name := lit "adk.event";
     payload := tool_payload;
     event_timestamp := 1700000000%N |}.

(** A payload without author, agent or tool. *)
Definition bare_event : StreamEvent N :=
  {| sequence := 8%N;
     event_name := lit "adk.event";
     payload := VObject [(lit "turnComplete", VBool true)];
     event_timestamp := 1700000001%N |}.

Definition agents_response : value N :=
  VArray
    [VObject [(lit "key", VString (lit "divorce_case"));
              (lit "display_name", VString (lit "Case agent"));
              (lit "description", VString (lit "Reads evidence"));
              (lit "focus", VString (lit "law"));
              (lit "strengths", VArray [VString (lit "fast"); VString (lit " ")]);
              (lit "active", VString (lit "TRUE"))];
     VObject [(lit "key", VString []);
              (lit "display_name", VString (lit "No key"))];
     VNull].

End Samples.

(* ------------------------------------------------------------------ *)
(** ** The two [describeSqlMode] *)

Module SqlMode.

(** [SQL_MODE_PRESETS[mode]?.label] of App.tsx for an own key. *)
Definition preset_label (mode : str) : option str :=
  if str_eqb mode (lit "schema_aware") then Some (lit "Schema-Aware SQL")
  else if str_eqb mode (lit "template") then Some (lit "Template SQL")
  else if str_eqb mode (lit "adk") then Some (lit "ADK Agent")
  else None.

Section Presets.

(** The [label] of what a plain object inherits under a name, if that has
    one. *)
Variable inherited_label : str -> option str.

(** [describeSqlMode] of App.tsx; [None] is [null] or [undefined]. *)
Definition describeSqlMode_presets (mode : option str) : str :=
  match mode with
  | None => literal "SQL 엔진"
  | Some m =>
      if negb (truthy m) then literal "SQL 엔진"
      else
        match preset_label m with
        | Some label => label
        | None =>
            match inherited_label m with
            | Some label => label
            | None => literal "SQL 엔진"
            end
        end
  end.

End Presets.

(** [describeSqlMode] of the agent identity component: a [switch]. *)
Definition describeSqlMode_switch (mode : option str) : str :=
  match mode with
  | None => literal "SQL 엔진"
  | Some m =>
      if str_eqb m (lit "schema_aware") then lit "Schema-Aware SQL"
      else if str_eqb m (lit "template") then lit "Template SQL"
      else if str_eqb m (lit "adk") then lit "ADK Agent"
      else literal "SQL 엔진"
  end.

End SqlMode.

(* ------------------------------------------------------------------ *)
(** ** Facts about [split] *)

Lemma startsWith_app (s t sep : str) :
  startsWith s sep = true -> startsWith (s ++ t) sep = true.
Proof.
  revert s; induction sep as [|p sep IH]; intros [|c s]; simpl;
    try easy.
  intros H; apply andb_true_iff in H as [-> H]; simpl; auto.
Qed.

Lemma startsWith_length (s sep : str) :
  startsWith s sep = true -> length sep <= length s.
Proof.
  revert s; induction sep as [|p sep IH]; intros [|c s]; simpl;
    try lia; try discriminate.
  intros H; apply andb_true_iff in H as [_ H]; apply IH in H; lia.
Qed.

Lemma startsWith_app_short (s t sep : str) :
  startsWith (s ++ t) sep = true -> startsWith s sep = false ->
  length s < length sep.
Proof.
  revert s; induction sep as [|p sep IH]; intros [|c s]; simpl;
    try lia; try discriminate.
  intros H1 H2; apply andb_true_iff in H1 as [Hc H1].
  rewrite Hc in H2; simpl in H2.
  specialize (IH _ H1 H2); lia.
Qed.

Lemma startsWith_prefix (s sep : str) : startsWith (sep ++ s) sep = true.
Proof.
  induction sep as [|p sep IH]; simpl; auto.
  now rewrite N.eqb_refl.
Qed.

Lemma split_from_nonempty (sep : str) (k : nat) (s : str) :
  split_from sep k s <> [].
Proof.
  revert k; induction s as [|c s IH]; intros k; simpl; [discriminate|].
  destruct k; [|apply IH].
  destruct (startsWith (c :: s) sep); [discriminate|].
  specialize (IH 0); destruct (split_from sep 0 s); simpl; congruence.
Qed.

(** Passing over the rest of an occurrence is dropping it. *)
Lemma split_from_skip (sep : str) (k : nat) (s : str) :
  k <= length s -> split_from sep k s = split_from sep 0 (skipn k s).
Proof.
  revert s; induction k as [|k IH]; intros s Hk; [reflexivity|].
  destruct s as [|c s]; simpl in *; [lia|].
  apply IH; lia.
Qed.

Lemma split_from_match (sep s : str) :
  sep <> [] -> startsWith s sep = true ->
  split_from sep 0 s = [] :: split_from sep 0 (skipn (length sep) s).
Proof.
  intros Hsep Hs.
  pose proof (startsWith_length _ _ Hs) as Hlen.
  destruct s as [|c s]; [destruct sep; simpl in *; congruence|].
  cbn [split_from]; rewrite Hs.
  destruct sep as [|p sep]; [congruence|].
  simpl in Hlen.
  rewrite split_from_skip by (simpl; lia).
  simpl; now rewrite Nat.sub_0_r.
Qed.

Lemma split_from_no_match (sep : str) (c : code_unit) (s : str) :
  startsWith (c :: s) sep = false ->
  split_from sep 0 (c :: s) = push_front c (split_from sep 0 s).
Proof.
  intros Hs; cbn [split_from]; now rewrite Hs.
Qed.

Lemma split_from_short (sep s : str) :
  length s < length sep -> split_from sep 0 s = [s].
Proof.
  induction s as [|c s IH]; intros Hlen; [reflexivity|].
  rewrite split_from_no_match.
  - rewrite IH by (simpl in Hlen; lia); reflexivity.
  - destruct (startsWith (c :: s) sep) eqn:E; [|reflexivity].
    apply startsWith_length in E; lia.
Qed.

(** A split without an occurrence returns the string itself. *)
Lemma split_from_singleton (sep s x : str) :
  sep <> [] -> split_from sep 0 s = [x] -> x = s.
Proof.
  intros Hsep; revert x; induction s as [|c s IH]; intros x H.
  - simpl in H; congruence.
  - destruct (startsWith (c :: s) sep) eqn:E.
    + rewrite split_from_match in H by assumption.
      injection H as _ H; now apply split_from_nonempty in H.
    + rewrite split_from_no_match in H by assumption.
      destruct (split_from sep 0 s) as [|y [|z ys]] eqn:Es; simpl in H;
        try discriminate.
      * now apply split_from_nonempty in Es.
      * injection H as <-; f_equal; now apply IH.
Qed.

(** The split of a text that grows at the end: the pieces already closed
    stay, and only the last piece is scanned again with the new text. *)
Lemma split_from_app (sep p q : str) :
  sep <> [] ->
  split_from sep 0 (p ++ q) =
  removelast (split_from sep 0 p)
    ++ split_from sep 0 (last (split_from sep 0 p) [] ++ q).
Proof.
  intros Hsep.
  remember (length p) as n eqn:Hn; revert p Hn.
  induction n as [n IH] using lt_wf_ind; intros p Hn.
  destruct p as [|c p]; [reflexivity|].
  destruct (startsWith (c :: p) sep) eqn:E.
  - pose proof (startsWith_length _ _ E) as Hlen.
    rewrite (split_from_match sep (c :: p)) by assumption.
    rewrite (split_from_match sep ((c :: p) ++ q))
      by (auto using startsWith_app).
    rewrite skipn_app.
    replace (length sep - length (c :: p)) with 0 by lia.
    change (skipn 0 q) with q.
    set (r := skipn (length sep) (c :: p)).
    assert (Hr : length r < n).
    { subst r n; rewrite length_skipn.
      destruct sep; [congruence | simpl in *; lia]. }
    rewrite (IH _ Hr r eq_refl).
    pose proof (split_from_nonempty sep 0 r) as Hne.
    destruct (split_from sep 0 r) as [|x xs]; [congruence | reflexivity].
  - destruct (startsWith ((c :: p) ++ q) sep) eqn:E'.
    + pose proof (startsWith_app_short _ _ _ E' E) as Hshort.
      rewrite (split_from_short sep (c :: p)) by assumption.
      reflexivity.
    + rewrite (split_from_no_match sep c (p)) by assumption.
      cbn [app] in *.
      rewrite split_from_no_match by assumption.
      rewrite (IH (length p)) by (try reflexivity; simpl in Hn; lia).
      destruct (split_from sep 0 p) as [|x [|y ys]] eqn:Ep.
      * now apply split_from_nonempty in Ep.
      * apply split_from_singleton in Ep; [subst x|assumption].
        cbn [push_front removelast last app].
        now rewrite split_from_no_match by assumption.
      * reflexivity.
Qed.

Lemma last_app_nonempty {A : Type} (l l' : list A) (d : A) :
  l' <> [] -> last (l ++ l') d = last l' d.
Proof.
  intros Hne; induction l as [|a l IH]; [reflexivity|].
  simpl; rewrite IH.
  destruct (l ++ l') eqn:E; [|reflexivity].
  apply app_eq_nil in E as [_ E]; congruence.
Qed.

Lemma split_from_last_closed (sep p : str) :
  sep <> [] ->
  split_from sep 0 (last (split_from sep 0 p) []) =
  [last (split_from sep 0 p) []].
Proof.
  intros Hsep.
  pose proof (split_from_app sep p [] Hsep) as H.
  rewrite !app_nil_r in H.
  rewrite (app_removelast_last [] (split_from_nonempty sep 0 p)) in H at 1.
  now apply app_inv_head in H.
Qed.

Lemma complete_messages_app (p q : str) :
  complete_messages (p ++ q) =
  complete_messages p ++ complete_messages (trailing p ++ q).
Proof.
  unfold complete_messages, trailing, split.
  rewrite split_from_app by discriminate.
  apply removelast_app, split_from_nonempty.
Qed.

Lemma trailing_app (p q : str) :
  trailing (p ++ q) = trailing (trailing p ++ q).
Proof.
  unfold trailing, split.
  rewrite split_from_app by discriminate.
  apply last_app_nonempty, split_from_nonempty.
Qed.

Lemma complete_messages_trailing (p : str) :
  complete_messages (trailing p) = [].
Proof.
  unfold complete_messages, trailing, split.
  now rewrite split_from_last_closed by discriminate.
Qed.

Lemma trailing_incomplete (b : str) :
  complete_messages b = [] -> trailing b = b.
Proof.
  unfold complete_messages, trailing, split; intros H.
  pose proof (split_from_nonempty [NL; NL] 0 b) as Hne.
  destruct (split_from [NL; NL] 0 b) as [|x [|y l]] eqn:E;
    [congruence | | discriminate].
  now apply split_from_singleton in E.
Qed.

(** Joining the pieces of a split gives the text back. *)
Lemma startsWith_skipn (s sep : str) :
  startsWith s sep = true -> sep ++ skipn (length sep) s = s.
Proof.
  revert s; induction sep as [|p sep IH]; intros [|c s]; simpl;
    try easy.
  intros H; apply andb_true_iff in H as [Hc H].
  apply N.eqb_eq in Hc; subst p; f_equal; now apply IH.
Qed.

Lemma join_cons (sep p : str) (pieces : list str) :
  pieces <> [] -> join sep (p :: pieces) = p ++ sep ++ join sep pieces.
Proof. destruct pieces; [congruence | reflexivity]. Qed.

Lemma join_push_front (sep : str) (c : code_unit) (pieces : list str) :
  pieces <> [] -> join sep (push_front c pieces) = c :: join sep pieces.
Proof. destruct pieces as [|x [|y l]]; [congruence | reflexivity..]. Qed.

Lemma join_split_from (sep s : str) :
  sep <> [] -> join sep (split_from sep 0 s) = s.
Proof.
  intros Hsep.
  remember (length s) as n eqn:Hn; revert s Hn.
  induction n as [n IH] using lt_wf_ind; intros s Hn.
  destruct s as [|c s]; [reflexivity|].
  destruct (startsWith (c :: s) sep) eqn:E.
  - rewrite split_from_match by assumption.
    rewrite join_cons by apply split_from_nonempty.
    rewrite (IH (length (skipn (length sep) (c :: s)))); try reflexivity.
    + now apply startsWith_skipn.
    + rewrite length_skipn; subst n.
      destruct sep; [congruence | simpl; lia].
  - rewrite split_from_no_match by assumption.
    rewrite join_push_front by apply split_from_nonempty.
    f_equal; apply (IH (length s)); [subst n; simpl; lia | reflexivity].
Qed.

Example split_takes_leftmost_delimiter :
  split [NL; NL] (lit "a" ++ [NL; NL; NL] ++ lit "b") =
  [lit "a"; [NL] ++ lit "b"].
Proof. reflexivity. Qed.

Example split_after_last_delimiter :
  split [NL; NL] (lit "a" ++ [NL; NL]) = [lit "a"; []]
  /\ split [NL; NL] [] = [[]].
Proof. split; reflexivity. Qed.

Example trim_both_ends :
  trim ([NL; 9%N] ++ lit " x y  " ++ [13%N; NL]) = lit "x y".
Proof. reflexivity. Qed.

(** The pieces of a split are made of code units of the text. *)
Lemma split_from_In (sep : str) (k : nat) (s piece : str) (c : code_unit) :
  In piece (split_from sep k s) -> In c piece -> In c s.
Proof.
  revert k piece; induction s as [|a s IH]; intros k piece Hp Hc.
  - simpl in Hp; destruct Hp as [<-|[]]; assumption.
  - simpl in Hp; destruct k as [|k]; [|right; eauto].
    destruct (startsWith (a :: s) sep).
    + destruct Hp as [<-|Hp]; [destruct Hc | right; eauto].
    + destruct (split_from sep 0 s) as [|x xs] eqn:E.
      * now apply split_from_nonempty in E.
      * simpl in Hp; destruct Hp as [<-|Hp].
        -- destruct Hc as [<-|Hc]; [now left | right].
           apply (IH 0 x); [rewrite E; now left | assumption].
        -- right; apply (IH 0 piece); [rewrite E; now right | assumption].
Qed.

(** ** Facts about [trim] *)

Lemma trimStart_nil (s : str) :
  trimStart s = [] <-> forallb is_space s = true.
Proof.
  induction s as [|c s IH]; simpl; [tauto|].
  destruct (is_space c); simpl; [assumption|].
  split; discriminate.
Qed.

Lemma trimStart_spaces (s : str) :
  forallb is_space s = true -> forallb is_space (trimStart s) = true.
Proof.
  induction s as [|c s IH]; simpl; [trivial|].
  destruct (is_space c) eqn:E; simpl; [assumption | discriminate].
Qed.

Lemma trimStart_suffix (s : str) : exists front,
  s = front ++ trimStart s /\ forallb is_space front = true.
Proof.
  induction s as [|c s [front [IH1 IH2]]]; simpl; [now exists []|].
  destruct (is_space c) eqn:E.
  - exists (c :: front); simpl; rewrite E; split; [now f_equal | assumption].
  - now exists [].
Qed.

Lemma forallb_rev {A : Type} (f : A -> bool) (l : list A) :
  forallb f (rev l) = forallb f l.
Proof.
  induction l as [|a l IH]; simpl; [reflexivity|].
  rewrite forallb_app, IH; simpl.
  rewrite andb_true_r; apply andb_comm.
Qed.

(** A string trims to the empty string exactly when it is white space
    throughout. *)
Lemma trim_nil (s : str) :
  trim s = [] <-> forallb is_space s = true.
Proof.
  unfold trim, trimEnd; split.
  - intros H.
    apply (f_equal (@rev code_unit)) in H; rewrite rev_involutive in H.
    simpl in H; apply trimStart_nil in H; rewrite forallb_rev in H.
    destruct (trimStart_suffix s) as [front [Hs Hf]].
    rewrite Hs, forallb_app, Hf, H; reflexivity.
  - intros H.
    apply trimStart_spaces in H; rewrite <- forallb_rev in H.
    apply trimStart_nil in H; now rewrite H.
Qed.

(** ** The line scan *)

Lemma scan_line_event (acc : str * str) (name : str) :
  scan_line acc (event_prefix ++ name) = (trim name, snd acc).
Proof. destruct acc; reflexivity. Qed.

Lemma scan_line_data (acc : str * str) (payload : str) :
  scan_line acc (data_prefix ++ payload) = (fst acc, trim payload).
Proof. destruct acc; reflexivity. Qed.

Lemma scan_line_keeps_data (acc : str * str) (line : str) :
  no_data_line line -> snd (scan_line acc line) = snd acc.
Proof.
  unfold no_data_line, scan_line; intros H; destruct acc as [e d].
  rewrite H; now destruct (startsWith line event_prefix).
Qed.

Lemma scan_line_keeps_event (acc : str * str) (line : str) :
  no_event_line line -> fst (scan_line acc line) = fst acc.
Proof.
  unfold no_event_line, scan_line; intros H; destruct acc as [e d].
  rewrite H; now destruct (startsWith line data_prefix).
Qed.

Lemma fold_scan_keeps_data (lines : list str) (acc : str * str) :
  Forall no_data_line lines -> snd (fold_left scan_line lines acc) = snd acc.
Proof.
  intros H; revert acc; induction H as [|l ls Hl _ IH]; intros acc;
    [reflexivity|].
  simpl; rewrite IH; now apply scan_line_keeps_data.
Qed.

Lemma fold_scan_keeps_event (lines : list str) (acc : str * str) :
  Forall no_event_line lines -> fst (fold_left scan_line lines acc) = fst acc.
Proof.
  intros H; revert acc; induction H as [|l ls Hl _ IH]; intros acc;
    [reflexivity|].
  simpl; rewrite IH; now apply scan_line_keeps_event.
Qed.

(** The last [data: ] line decides the payload, the last [event: ] line the
    name. *)
Lemma scan_lines_last_data (before after : list str) (payload : str) :
  Forall no_data_line after ->
  snd (scan_lines (before ++ (data_prefix ++ payload) :: after)) =
  trim payload.
Proof.
  intros H; unfold scan_lines.
  rewrite fold_left_app; cbn [fold_left].
  rewrite fold_scan_keeps_data by assumption.
  now rewrite scan_line_data.
Qed.

Lemma scan_lines_last_event (before after : list str) (name : str) :
  Forall no_event_line after ->
  fst (scan_lines (before ++ (event_prefix ++ name) :: after)) = trim name.
Proof.
  intros H; unfold scan_lines.
  rewrite fold_left_app; cbn [fold_left].
  rewrite fold_scan_keeps_event by assumption.
  now rewrite scan_line_event.
Qed.

Lemma scan_lines_no_data (lines : list str) :
  Forall no_data_line lines -> snd (scan_lines lines) = [].
Proof. intros H; unfold scan_lines; now rewrite fold_scan_keeps_data. Qed.

Lemma scan_lines_no_event (lines : list str) :
  Forall no_event_line lines -> fst (scan_lines lines) = lit "message".
Proof. intros H; unfold scan_lines; now rewrite fold_scan_keeps_event. Qed.

Lemma space_line_plain (line : str) :
  forallb is_space line = true -> no_event_line line /\ no_data_line line.
Proof.
  unfold no_event_line, no_data_line.
  destruct line as [|c line]; [split; reflexivity|].
  simpl; intros H; apply andb_true_iff in H as [Hc _].
  split.
  - destruct (N.eqb_spec c 101) as [->|_]; [discriminate Hc | reflexivity].
  - destruct (N.eqb_spec c 100) as [->|_]; [discriminate Hc | reflexivity].
Qed.

(** A message of white space only has no [event: ] and no [data: ] line. *)
Lemma blank_message_lines (message : str) :
  trim message = [] ->
  Forall no_event_line (split [NL] message)
  /\ Forall no_data_line (split [NL] message).
Proof.
  intros H; apply trim_nil in H.
  rewrite forallb_forall in H.
  assert (Hl : forall line, In line (split [NL] message) ->
                forallb is_space line = true).
  { intros line Hline; apply forallb_forall; intros c Hc.
    apply H; eapply split_from_In; eassumption. }
  split; apply Forall_forall; intros line Hline;
    now apply space_line_plain, Hl.
Qed.

Lemma blank_message_payload (message : str) :
  trim message = [] -> payload_of message = [].
Proof.
  intros H; apply scan_lines_no_data; now apply blank_message_lines.
Qed.

Lemma str_eqb_refl (a : str) : str_eqb a a = true.
Proof.
  induction a as [|x a IH]; simpl; [reflexivity|].
  now rewrite N.eqb_refl.
Qed.

Lemma truthy_true (s : str) : truthy s = true <-> s <> [].
Proof. destruct s; simpl; split; congruence. Qed.

(* ------------------------------------------------------------------ *)
(** ** The message loop and the read loop *)

Section StreamQueryFacts.

Context {JSValue : Type}.
Variable JSON_parse : str -> option JSValue.
Variable error_object : str -> JSValue.
Variable onEvent : SSEEvent JSValue -> option thrown.

Local Abbreviation handle := (handle_message JSON_parse error_object onEvent).
Local Abbreviation callbacks := (callbacks_of JSON_parse error_object onEvent).
Local Abbreviation messages_loop :=
  (for_messages JSON_parse error_object onEvent).
Local Abbreviation reads_loop := (read_loop JSON_parse error_object onEvent).

(** A message without payload text makes no callback and throws nothing,
    whatever the callback does. *)
Lemma handle_message_no_payload (message : str) :
  payload_of message = [] -> handle message = ([], None).
Proof.
  unfold handle_message, payload_of; intros H.
  destruct (scan_lines (split [NL] message)) as [e d]; simpl in H.
  subst d; now destruct (truthy (trim message)).
Qed.

Lemma for_messages_app_skip (before after : list str) (message : str) :
  handle message = ([], None) ->
  messages_loop (before ++ message :: after) = messages_loop (before ++ after).
Proof.
  intros H; induction before as [|m before IH]; simpl.
  - now rewrite H; destruct (messages_loop after).
  - destruct (handle m) as [evs [e|]]; [reflexivity|].
    now rewrite IH.
Qed.

Lemma read_loop_stop (chunks : list str) (r : read_result)
    (rest : list read_result) (buffer : str) :
  (forall text, r <> Chunk text) ->
  reads_loop (map Chunk chunks ++ r :: rest) buffer =
  match reads_loop (map Chunk chunks) buffer with
  | (evs, Awaiting, b) => (evs, settle r, b)
  | other => other
  end.
Proof.
  intros Hr; revert buffer; induction chunks as [|c chunks IH];
    intros buffer.
  - destruct r; simpl; try reflexivity. now destruct (Hr text).
  - cbn [map app read_loop].
    destruct (messages_loop _) as [evs [e|]]; [reflexivity|].
    rewrite IH.
    destruct (reads_loop (map Chunk chunks) _) as [[evs' st] b].
    now destruct st.
Qed.

Section QuietCallback.

(** The callback returns from every call. *)
Hypothesis onEvent_returns : forall ev, onEvent ev = None.

Lemma handle_message_returns (message : str) :
handle message = (callbacks message, None).
Proof.
unfold callbacks_of, handle_message.
destruct (truthy (trim message)); [cbn [negb] | reflexivity].
destruct (scan_lines (split [NL] message)) as [e d].
destruct (truthy d); [|reflexivity].
destruct (JSON_parse d); now rewrite onEvent_returns.
Qed.

Lemma callbacks_of_payload (message : str) :
callbacks message =
if truthy (payload_of message) then
  match JSON_parse (payload_of message) with
  | Some parsed =>
      [{| event := event_name_of message; data := parsed |}]
  | None => [parse_error_event error_object]
  end
else [].
Proof.
unfold callbacks_of.
destruct (truthy (trim message)) eqn:Eb.
- unfold handle_message, payload_of, event_name_of; rewrite Eb.
  cbn [negb].
  destruct (scan_lines (split [NL] message)) as [e d]; cbn [fst snd].
  destruct (truthy d); [|reflexivity].
  destruct (JSON_parse d); now rewrite onEvent_returns.
- assert (Hb : trim message = []) by (now destruct (trim message)).
  rewrite handle_message_no_payload
    by (now apply blank_message_payload).
  now rewrite blank_message_payload.
Qed.

Lemma for_messages_returns (messages : list str) :
messages_loop messages = (flat_map callbacks messages, None).
Proof.
induction messages as [|m ms IH]; [reflexivity|].
simpl; rewrite handle_message_returns, IH; reflexivity.
Qed.

(** The read loop over chunks, from a buffer without a complete
  message: it has called back for the complete messages of the text
  received, in order, and holds the incomplete tail. *)
Lemma read_loop_chunks (chunks : list str) (buffer : str) :
complete_messages buffer = [] ->
reads_loop (map Chunk chunks) buffer =
(flat_map callbacks (complete_messages (buffer ++ concat chunks)),
 Awaiting,
 trailing (buffer ++ concat chunks)).
Proof.
revert buffer; induction chunks as [|c chunks IH]; intros buffer Hb.
- simpl; rewrite app_nil_r, Hb, trailing_incomplete by assumption.
  reflexivity.
- cbn [map read_loop concat].
  fold (complete_messages (buffer ++ c)).
  fold (trailing (buffer ++ c)).
  rewrite for_messages_returns.
  rewrite IH by apply complete_messages_trailing.
  rewrite app_assoc.
  rewrite (complete_messages_app (buffer ++ c)), flat_map_app.
  now rewrite (trailing_app (buffer ++ c)).
Qed.

Lemma streamQuery_chunks_done (code : N) (chunks : list str)
  (rest : list read_result) :
streamQuery JSON_parse error_object onEvent
  (FetchResolved {| ok := true; http_status := code;
                    body := Some (map Chunk chunks ++ Done :: rest) |}) =
(flat_map callbacks (complete_messages (concat chunks)), Returned).
Proof.
unfold streamQuery, on_response; cbn [ok body negb].
rewrite read_loop_stop by discriminate.
now rewrite read_loop_chunks.
Qed.

End QuietCallback.

(** A read rejected with an [AbortError] leaves the promise chain as a
    [done] at the same place would. *)
Lemma streamQuery_abort_as_done (code : N) (chunks : list str)
    (error : thrown) (rest rest' : list read_result) :
  name error = AbortError ->
  streamQuery JSON_parse error_object onEvent
    (FetchResolved {| ok := true; http_status := code;
                      body := Some (map Chunk chunks
                                      ++ ReadRejected error :: rest) |}) =
  streamQuery JSON_parse error_object onEvent
    (FetchResolved {| ok := true; http_status := code;
                      body := Some (map Chunk chunks ++ Done :: rest') |}).
Proof.
  intros Hname.
  unfold streamQuery, on_response; cbn [ok body negb].
  rewrite !read_loop_stop by discriminate.
  destruct (reads_loop (map Chunk chunks) []) as [[evs st] b].
  destruct st; cbn [settle]; try reflexivity.
  now rewrite Hname, str_eqb_refl, andb_false_r.
Qed.

End StreamQueryFacts.

(* ------------------------------------------------------------------ *)
(** ** Properties of [streamQuery] *)

Section StreamQueryClaims.

Context {JSValue : Type}.
Variable JSON_parse : str -> option JSValue.
Variable error_object : str -> JSValue.
Variable onEvent : SSEEvent JSValue -> option thrown.

Local Abbreviation handle := (handle_message JSON_parse error_object onEvent).
Local Abbreviation callbacks := (callbacks_of JSON_parse error_object onEvent).
Local Abbreviation messages_loop :=
  (for_messages JSON_parse error_object onEvent).
Local Abbreviation reads_loop := (read_loop JSON_parse error_object onEvent).
Local Abbreviation run := (streamQuery JSON_parse error_object onEvent).

(** C1, as amended.  With a callback that returns, and for every division
    of the text into read chunks: after the reads the buffer holds the
    incomplete tail (the text after the last blank-line delimiter), and the
    callbacks made are those of the delimiter-terminated messages of the
    whole text, each message taken once and in order, wherever the chunk
    boundaries fall (two divisions of one text give the same run); the same
    holds when the stream then ends on a non-empty buffer.  A message makes
    exactly one callback when its payload text is non-empty and none
    otherwise. *)
Theorem streamQuery_reassembles_messages
    (onEvent_returns : forall ev, onEvent ev = None)
    (chunks : list str) :
  reads_loop (map Chunk chunks) [] =
    (flat_map callbacks (complete_messages (concat chunks)),
     Awaiting,
     trailing (concat chunks))
  /\ (forall code rest,
        run (streaming code (map Chunk chunks ++ Done :: rest)) =
        (flat_map callbacks (complete_messages (concat chunks)), Returned))
  /\ (forall chunks',
        concat chunks' = concat chunks ->
        reads_loop (map Chunk chunks') [] = reads_loop (map Chunk chunks) [])
  /\ (forall message,
        length (callbacks message) =
        if truthy (payload_of message) then 1 else 0).
Proof.
  split; [|split; [|split]].
  - now rewrite read_loop_chunks.
  - intros code rest; now apply streamQuery_chunks_done.
  - intros chunks' Hsame.
    rewrite !read_loop_chunks by (assumption || reflexivity).
    cbn [app]; now rewrite Hsame.
  - intros message; rewrite callbacks_of_payload by assumption.
    destruct (truthy (payload_of message)); [|reflexivity].
    now destruct (JSON_parse (payload_of message)).
Qed.

(** C2.  With a callback that returns: when [JSON.parse] throws on the
    payload of one complete message, that message makes the one callback
    [{event: 'error', data: {error: 'Failed to parse SSE data'}}], the
    messages before and after it make their callbacks as usual, in
    particular a later message whose payload parses is emitted with its
    decoded value, and the loop is left awaiting the next read. *)
Theorem parse_failure_is_reported_and_skipped
    (onEvent_returns : forall ev, onEvent ev = None)
    (chunks : list str) (before after : list str) (bad : str) :
  complete_messages (concat chunks) = before ++ bad :: after ->
  payload_of bad <> [] ->
  JSON_parse (payload_of bad) = None ->
  reads_loop (map Chunk chunks) [] =
    (flat_map callbacks before
       ++ [parse_error_event error_object]
       ++ flat_map callbacks after,
     Awaiting,
     trailing (concat chunks))
  /\ (forall good parsed,
        In good after ->
        payload_of good <> [] ->
        JSON_parse (payload_of good) = Some parsed ->
        callbacks good =
        [{| event := event_name_of good; data := parsed |}]).
Proof.
  intros Hms Hbad Hparse; split.
  - rewrite read_loop_chunks by (assumption || reflexivity).
    cbn [app]; rewrite Hms, flat_map_app; cbn [flat_map].
    rewrite (callbacks_of_payload _ _ _ onEvent_returns bad), Hparse.
    apply truthy_true in Hbad; now rewrite Hbad.
  - intros good parsed _ Hgood Hp.
    rewrite callbacks_of_payload, Hp by assumption.
    apply truthy_true in Hgood; now rewrite Hgood.
Qed.

(** C3.  With a callback that returns: the callbacks are made in the
    order of the messages in the stream.  When message [A] ends before
    message [B], the callbacks for [A] come before those for [B]. *)
Theorem callbacks_in_stream_order
    (onEvent_returns : forall ev, onEvent ev = None)
    (chunks : list str) (before between after : list str) (A B : str) :
  complete_messages (concat chunks) =
    before ++ A :: between ++ B :: after ->
  fst (fst (reads_loop (map Chunk chunks) [])) =
    flat_map callbacks before ++ callbacks A
      ++ flat_map callbacks between ++ callbacks B
      ++ flat_map callbacks after.
Proof.
  intros Hms.
  rewrite read_loop_chunks by (assumption || reflexivity).
  cbn [app fst]; rewrite Hms.
  rewrite flat_map_app; cbn [flat_map].
  rewrite flat_map_app; cbn [flat_map].
  reflexivity.
Qed.

(** C4.  With a callback that returns: a message whose lines have a last
    [event: ] line and a last [data: ] line, the payload text trimmed
    being non-empty and decoded by [JSON.parse], makes the single callback
    [{event, data}] with the trimmed name and the decoded payload; a
    message of white space only makes none. *)
Theorem message_is_parsed_and_dispatched
    (onEvent_returns : forall ev, onEvent ev = None) :
  (forall message before_e name after_e before_d payload after_d parsed,
      split [NL] message = before_e ++ (event_prefix ++ name) :: after_e ->
      Forall no_event_line after_e ->
      split [NL] message = before_d ++ (data_prefix ++ payload) :: after_d ->
      Forall no_data_line after_d ->
      trim payload <> [] ->
      JSON_parse (trim payload) = Some parsed ->
      handle message = ([{| event := trim name; data := parsed |}], None))
  /\ (forall blank, trim blank = [] -> handle blank = ([], None)).
Proof.
  split.
  - intros message before_e name after_e before_d payload after_d parsed
      He Hae Hd Had Hp Hparse.
    assert (Hpayload : payload_of message = trim payload).
    { unfold payload_of; rewrite Hd; now apply scan_lines_last_data. }
    assert (Hname : event_name_of message = trim name).
    { unfold event_name_of; rewrite He; now apply scan_lines_last_event. }
    rewrite handle_message_returns, callbacks_of_payload by assumption.
    rewrite Hpayload, Hname, Hparse.
    apply truthy_true in Hp; now rewrite Hp.
  - intros blank Hb.
    now apply handle_message_no_payload, blank_message_payload.
Qed.

(** C5.  Cancellation reaches the code as a rejection whose name is
    [AbortError], of [fetch] or of a read.  Either way the promise chain
    returns: a rejected [fetch] makes no callback; a rejected read stops
    the reading (what would follow is never read) and leaves the chain
    exactly as a [done] at the same place would; with a callback that
    returns, the callbacks are those of the complete messages received
    before, with no error event added, and nothing is thrown. *)
Theorem cancellation_is_silent
    (onEvent_returns : forall ev, onEvent ev = None)
    (error : thrown) (code : N) (chunks : list str)
    (rest : list read_result) :
  name error = AbortError ->
  run (FetchRejected error) = ([], Returned)
  /\ run (streaming code (map Chunk chunks ++ ReadRejected error :: rest)) =
     run (streaming code (map Chunk chunks ++ [Done]))
  /\ run (streaming code (map Chunk chunks ++ ReadRejected error :: rest)) =
     (flat_map callbacks (complete_messages (concat chunks)), Returned).
Proof.
  intros Hname; split; [|split].
  - unfold streamQuery, on_rejection.
    now rewrite Hname, str_eqb_refl.
  - now apply streamQuery_abort_as_done.
  - unfold streaming.
    rewrite (streamQuery_abort_as_done _ _ _ code chunks error rest [])
      by assumption.
    now apply streamQuery_chunks_done.
Qed.

(** C6.  When a read reports [done] the loop is left and no callback
    follows: the callbacks of the run are those made for the chunks read
    before, whatever the buffer still holds and whatever the callback
    does; with a callback that returns they are the callbacks of the
    complete messages, and the chain returns. *)
Theorem done_ends_without_event
    (onEvent_returns : forall ev, onEvent ev = None)
    (code : N) (chunks : list str) (rest : list read_result)
    (buffer : str) :
  fst (fst (reads_loop (map Chunk chunks ++ Done :: rest) buffer)) =
    fst (fst (reads_loop (map Chunk chunks) buffer))
  /\ snd (reads_loop (map Chunk chunks ++ Done :: rest) buffer) =
     snd (reads_loop (map Chunk chunks) buffer)
  /\ run (streaming code (map Chunk chunks ++ Done :: rest)) =
     (flat_map callbacks (complete_messages (concat chunks)), Returned).
Proof.
  split; [|split].
  - rewrite read_loop_stop by discriminate.
    destruct (reads_loop (map Chunk chunks) buffer) as [[evs st] b].
    now destruct st.
  - rewrite read_loop_stop by discriminate.
    destruct (reads_loop (map Chunk chunks) buffer) as [[evs st] b].
    now destruct st.
  - now apply streamQuery_chunks_done.
Qed.

(** C7.  With a callback that returns: of several [data: ] lines in a
    message only the last counts, the payload text is that line's text
    trimmed and the callback gets its JSON decoding alone; likewise the
    last of several [event: ] lines gives the name. *)
Theorem last_line_wins
    (onEvent_returns : forall ev, onEvent ev = None) :
  (forall message before first between final after,
      split [NL] message =
        before ++ (data_prefix ++ first) :: between
          ++ (data_prefix ++ final) :: after ->
      Forall no_data_line after ->
      payload_of message = trim final
      /\ (forall parsed,
            trim final <> [] ->
            JSON_parse (trim final) = Some parsed ->
            callbacks message =
            [{| event := event_name_of message; data := parsed |}]))
  /\ (forall message before first between final after,
        split [NL] message =
          before ++ (event_prefix ++ first) :: between
            ++ (event_prefix ++ final) :: after ->
        Forall no_event_line after ->
        event_name_of message = trim final).
Proof.
  split.
  - intros message before first between final after Hl Ha.
    assert (Hpayload : payload_of message = trim final).
    { unfold payload_of; rewrite Hl.
      change (before ++ (data_prefix ++ first) :: between
                ++ (data_prefix ++ final) :: after)
        with (before ++ ((data_prefix ++ first) :: between)
                ++ (data_prefix ++ final) :: after).
      rewrite app_assoc; now apply scan_lines_last_data. }
    split; [assumption|].
    intros parsed Hf Hp.
    rewrite callbacks_of_payload, Hpayload, Hp by assumption.
    apply truthy_true in Hf; now rewrite Hf.
  - intros message before first between final after Hl Ha.
    unfold event_name_of; rewrite Hl.
    change (before ++ (event_prefix ++ first) :: between
              ++ (event_prefix ++ final) :: after)
      with (before ++ ((event_prefix ++ first) :: between)
              ++ (event_prefix ++ final) :: after).
    rewrite app_assoc; now apply scan_lines_last_event.
Qed.

(** C8.  A message with no [data: ] line, or whose last [data: ] line
    trims to the empty string, makes no callback and throws nothing, and
    the loop over the messages goes on as if it were not there. *)
Theorem message_without_payload_is_skipped
    (message : str) (before after : list str) :
  Forall no_data_line (split [NL] message)
  \/ (exists front payload back,
        split [NL] message = front ++ (data_prefix ++ payload) :: back
        /\ Forall no_data_line back
        /\ trim payload = []) ->
  handle message = ([], None)
  /\ messages_loop (before ++ message :: after) =
     messages_loop (before ++ after).
Proof.
  intros H.
  assert (Hh : handle message = ([], None)).
  { apply handle_message_no_payload; unfold payload_of.
    destruct H as [H | (front & payload & back & Hl & Hb & Ht)].
    - now apply scan_lines_no_data.
    - rewrite Hl, scan_lines_last_data by assumption; assumption. }
  split; [assumption|].
  now apply for_messages_app_skip.
Qed.

End StreamQueryClaims.

(* ------------------------------------------------------------------ *)
(** ** The log list *)

(** C9.  Whatever the list was, after [appendLog] it has at most 300
    entries: the new entry is its last one, it is the list with the entry
    appended minus a front part, exactly the last 300 in their order when
    that makes more than 300, and all of it otherwise. *)
Theorem appendLog_keeps_last_300 (now : N) (rnd : str) (date : N)
    (source : App.LogSource) (message : str) (prev : list App.LogEntry) :
  let entry := {| App.id := decimal now ++ lit "-" ++ rnd;
                  App.source := source;
                  App.message := message;
                  App.timestamp := date |} in
  let next := App.appendLog now rnd date source message prev in
  length next <= 300
  /\ last next entry = entry
  /\ (exists front, next = front ++ [entry])
  /\ next = skipn (length (prev ++ [entry]) - 300) (prev ++ [entry])
  /\ (exists dropped,
        prev ++ [entry] = dropped ++ next
        /\ length dropped = length (prev ++ [entry]) - 300)
  /\ (300 < length (prev ++ [entry]) -> length next = 300)
  /\ (length (prev ++ [entry]) <= 300 -> next = prev ++ [entry]).
Proof.
  intros entry next.
  assert (Hnext : next = skipn (length (prev ++ [entry]) - 300)
                           (prev ++ [entry])).
  { subst next; unfold App.appendLog; fold entry.
    destruct (300 <? length (prev ++ [entry])) eqn:E; [reflexivity|].
    apply Nat.ltb_ge in E.
    now replace (length (prev ++ [entry]) - 300) with 0 by lia. }
  assert (Hlen : length next = Nat.min 300 (length (prev ++ [entry]))).
  { rewrite Hnext, length_skipn; lia. }
  assert (Hfront : exists front, next = front ++ [entry]).
  { rewrite Hnext, skipn_app.
    rewrite length_app in *; simpl in *.
    replace (length prev + 1 - 300 - length prev) with 0 by lia.
    now exists (skipn (length prev + 1 - 300) prev). }
  repeat split.
  - lia.
  - destruct Hfront as [front ->]; apply last_last.
  - assumption.
  - assumption.
  - exists (firstn (length (prev ++ [entry]) - 300) (prev ++ [entry])).
    split.
    + now rewrite Hnext, firstn_skipn.
    + rewrite length_firstn; lia.
  - lia.
  - intros Hle; rewrite Hnext.
    now replace (length (prev ++ [entry]) - 300) with 0 by lia.
Qed.

(* ------------------------------------------------------------------ *)
(** ** The properties on sample streams *)

Lemma streamQuery_reassembles_messages_witness :
  read_loop sample_parse JErrorObject quiet (map Chunk sample_chunks) [] =
    ([sse "a" JEmptyObject; sse "message" (JBool true)],
     Awaiting,
     lit "data: nu")
  /\ (forall code rest,
        streamQuery sample_parse JErrorObject quiet
          (streaming code (map Chunk sample_chunks ++ Done :: rest)) =
        ([sse "a" JEmptyObject; sse "message" (JBool true)], Returned))
  /\ (forall chunks',
        concat chunks' = concat sample_chunks ->
        read_loop sample_parse JErrorObject quiet (map Chunk chunks') [] =
        read_loop sample_parse JErrorObject quiet (map Chunk sample_chunks) [])
  /\ (forall message,
        length (callbacks_of sample_parse JErrorObject quiet message) =
        if truthy (payload_of message) then 1 else 0).
Proof.
  apply (streamQuery_reassembles_messages sample_parse JErrorObject quiet
           (fun _ => eq_refl) sample_chunks).
Defined.

(** C1 as stated fails: a terminated message without a [data: ] line is
    complete, and no callback is made for it. *)
Lemma terminated_message_without_callback :
  complete_messages (concat [ln "event: ping" ++ [NL]]) = [lit "event: ping"]
  /\ streamQuery sample_parse JErrorObject quiet
       (streaming 200 (map Chunk [ln "event: ping" ++ [NL]] ++ [Done])) =
     ([], Returned).
Proof. split; reflexivity. Qed.

Lemma parse_failure_is_reported_and_skipped_witness :
  read_loop sample_parse JErrorObject quiet
    (map Chunk [ln "data: {oops" ++ [NL] ++ ln "event: done";
                ln "data: true" ++ [NL]]) [] =
    ([sse "error" (JErrorObject (lit "Failed to parse SSE data"));
      sse "done" (JBool true)],
     Awaiting,
     [])
  /\ (forall good parsed,
        In good [lit "event: done" ++ [NL] ++ lit "data: true"] ->
        payload_of good <> [] ->
        sample_parse (payload_of good) = Some parsed ->
        callbacks_of sample_parse JErrorObject quiet good =
        [{| event := event_name_of good; data := parsed |}]).
Proof.
  apply (parse_failure_is_reported_and_skipped sample_parse JErrorObject quiet
           (fun _ => eq_refl)
           [ln "data: {oops" ++ [NL] ++ ln "event: done";
            ln "data: true" ++ [NL]]
           [] [lit "event: done" ++ [NL] ++ lit "data: true"]
           (lit "data: {oops")).
  - reflexivity.
  - vm_compute; discriminate.
  - reflexivity.
Defined.

Lemma callbacks_in_stream_order_witness :
  fst (fst (read_loop sample_parse JErrorObject quiet
              (map Chunk [ln "data: null" ++ [NL] ++ ln "event: x";
                          [NL] ++ ln "data: true" ++ [NL]]) [])) =
  [] ++ [sse "message" JNull] ++ [] ++ [sse "message" (JBool true)] ++ [].
Proof.
  apply (callbacks_in_stream_order sample_parse JErrorObject quiet
           (fun _ => eq_refl)
           [ln "data: null" ++ [NL] ++ ln "event: x";
            [NL] ++ ln "data: true" ++ [NL]]
           [] [lit "event: x"] [] (lit "data: null") (lit "data: true")).
  reflexivity.
Defined.

Lemma message_is_parsed_and_dispatched_witness :
  handle_message sample_parse JErrorObject quiet
    (ln "event:  start " ++ lit "data: {}") =
  ([sse "start" JEmptyObject], None)
  /\ handle_message sample_parse JErrorObject quiet (lit "  " ++ [NL]) =
     ([], None).
Proof.
  destruct (message_is_parsed_and_dispatched sample_parse JErrorObject quiet
              (fun _ => eq_refl)) as [Hmessage Hblank].
  split.
  - apply (Hmessage (ln "event:  start " ++ lit "data: {}")
             [] (lit " start ") [lit "data: {}"]
             [lit "event:  start "] (lit "{}") [] JEmptyObject).
    + reflexivity.
    + repeat constructor.
    + reflexivity.
    + constructor.
    + vm_compute; discriminate.
    + reflexivity.
  - apply Hblank; reflexivity.
Defined.

Lemma cancellation_is_silent_witness :
  streamQuery sample_parse JErrorObject quiet (FetchRejected abort_error) =
    ([], Returned)
  /\ streamQuery sample_parse JErrorObject quiet
       (streaming 200
          (map Chunk sample_chunks
             ++ ReadRejected abort_error :: [Chunk (ln "ll" ++ [NL])])) =
     streamQuery sample_parse JErrorObject quiet
       (streaming 200 (map Chunk sample_chunks ++ [Done]))
  /\ streamQuery sample_parse JErrorObject quiet
       (streaming 200
          (map Chunk sample_chunks
             ++ ReadRejected abort_error :: [Chunk (ln "ll" ++ [NL])])) =
     ([sse "a" JEmptyObject; sse "message" (JBool true)], Returned).
Proof.
  apply (cancellation_is_silent sample_parse JErrorObject quiet
           (fun _ => eq_refl) abort_error 200 sample_chunks
           [Chunk (ln "ll" ++ [NL])]).
  reflexivity.
Defined.

Lemma done_ends_without_event_witness :
  fst (fst (read_loop sample_parse JErrorObject quiet
              (map Chunk sample_chunks ++ Done :: [Chunk (ln "ll" ++ [NL])])
              [])) =
    fst (fst (read_loop sample_parse JErrorObject quiet
                (map Chunk sample_chunks) []))
  /\ snd (read_loop sample_parse JErrorObject quiet
            (map Chunk sample_chunks ++ Done :: [Chunk (ln "ll" ++ [NL])])
            []) =
     snd (read_loop sample_parse JErrorObject quiet
            (map Chunk sample_chunks) [])
  /\ streamQuery sample_parse JErrorObject quiet
       (streaming 200
          (map Chunk sample_chunks ++ Done :: [Chunk (ln "ll" ++ [NL])])) =
     ([sse "a" JEmptyObject; sse "message" (JBool true)], Returned).
Proof.
  apply (done_ends_without_event sample_parse JErrorObject quiet
           (fun _ => eq_refl) 200 sample_chunks [Chunk (ln "ll" ++ [NL])] []).
Defined.

Lemma last_line_wins_witness :
  (payload_of (ln "data: null" ++ ln "event: a" ++ lit "data: true") =
     lit "true"
   /\ callbacks_of sample_parse JErrorObject quiet
        (ln "data: null" ++ ln "event: a" ++ lit "data: true") =
      [sse "a" (JBool true)])
  /\ event_name_of (ln "event: a" ++ ln "event: b" ++ lit "data: {}") =
     lit "b".
Proof.
  destruct (last_line_wins sample_parse JErrorObject quiet
              (fun _ => eq_refl)) as [Hdata Hevent].
  split.
  - destruct (Hdata (ln "data: null" ++ ln "event: a" ++ lit "data: true")
                [] (lit "null") [lit "event: a"] (lit "true") [])
      as [Hpayload Hcallback].
    + reflexivity.
    + constructor.
    + split; [exact Hpayload|].
      apply (Hcallback (JBool true)); [vm_compute; discriminate | reflexivity].
  - apply (Hevent (ln "event: a" ++ ln "event: b" ++ lit "data: {}")
             [] (lit "a") [] (lit "b") [lit "data: {}"]).
    + reflexivity.
    + repeat constructor.
Defined.

Lemma message_without_payload_is_skipped_witness :
  (handle_message sample_parse JErrorObject quiet (lit "event: ping") =
     ([], None)
   /\ for_messages sample_parse JErrorObject quiet
        ([lit "data: null"] ++ lit "event: ping" :: [lit "data: true"]) =
      for_messages sample_parse JErrorObject quiet
        ([lit "data: null"] ++ [lit "data: true"]))
  /\ (handle_message sample_parse JErrorObject quiet
        (ln "data: {}" ++ lit "data:  ") = ([], None)
      /\ for_messages sample_parse JErrorObject quiet
           ([] ++ (ln "data: {}" ++ lit "data:  ") :: [lit "data: true"]) =
         for_messages sample_parse JErrorObject quiet
           ([] ++ [lit "data: true"])).
Proof.
  split.
  - apply (message_without_payload_is_skipped sample_parse JErrorObject quiet
             (lit "event: ping") [lit "data: null"] [lit "data: true"]).
    left; repeat constructor.
  - apply (message_without_payload_is_skipped sample_parse JErrorObject quiet
             (ln "data: {}" ++ lit "data:  ") [] [lit "data: true"]).
    right; exists [lit "data: {}"], (lit " "), [].
    repeat split; constructor.
Defined.

(* ------------------------------------------------------------------ *)
(** ** More on the framing: delimiters, the buffer, lost text *)

Lemma occurs_app (sep p q : str) : occurs sep p -> occurs sep (p ++ q).
Proof.
  intros (front & back & ->); exists front, (back ++ q).
  now rewrite <- !app_assoc.
Qed.

Lemma length_push_front (c : code_unit) (pieces : list str) :
  pieces <> [] -> length (push_front c pieces) = length pieces.
Proof. destruct pieces; [congruence | reflexivity]. Qed.

(** A split has more than one piece exactly when the separator occurs. *)
Lemma split_from_occurs (sep s : str) :
  sep <> [] -> occurs sep s -> 2 <= length (split_from sep 0 s).
Proof.
  intros Hsep (front & back & ->).
  induction front as [|c front IH].
  - cbn [app]; rewrite split_from_match
      by (assumption || apply startsWith_prefix).
    pose proof (split_from_nonempty sep 0 (skipn (length sep) (sep ++ back))).
    destruct (split_from sep 0 (skipn (length sep) (sep ++ back)));
      [congruence | simpl; lia].
  - cbn [app].
    destruct (startsWith (c :: front ++ sep ++ back) sep) eqn:E.
    + rewrite split_from_match by assumption.
      pose proof (split_from_nonempty sep 0
                    (skipn (length sep) (c :: front ++ sep ++ back))).
      destruct (split_from sep 0
                  (skipn (length sep) (c :: front ++ sep ++ back)));
        [congruence | simpl; lia].
    + rewrite split_from_no_match by assumption.
      rewrite length_push_front by apply split_from_nonempty.
      exact IH.
Qed.

Lemma split_from_pieces_occurs (sep s : str) :
  sep <> [] -> 2 <= length (split_from sep 0 s) -> occurs sep s.
Proof.
  intros Hsep Hlen.
  pose proof (join_split_from sep s Hsep) as Hjoin.
  destruct (split_from sep 0 s) as [|p [|q l]]; simpl in Hlen; try lia.
  exists p, (join sep (q :: l)).
  now rewrite <- Hjoin.
Qed.

Lemma split_from_no_occurs (sep s : str) :
  sep <> [] -> ~ occurs sep s -> split_from sep 0 s = [s].
Proof.
  intros Hsep Hno.
  pose proof (split_from_nonempty sep 0 s) as Hne.
  destruct (split_from sep 0 s) as [|p [|q l]] eqn:E; [congruence | |].
  - now apply split_from_singleton in E as ->.
  - exfalso; apply Hno, split_from_pieces_occurs; [assumption|].
    rewrite E; simpl; lia.
Qed.

Lemma complete_messages_nil_iff (s : str) :
  complete_messages s = [] <-> ~ occurs [NL; NL] s.
Proof.
  unfold complete_messages, split; split.
  - intros H Hocc.
    apply split_from_occurs in Hocc; [|discriminate].
    destruct (split_from [NL; NL] 0 s) as [|p [|q l]]; simpl in *;
      try lia; discriminate.
  - intros H; now rewrite split_from_no_occurs by (discriminate || assumption).
Qed.

(** X1.  The messages handed to the loop and the buffer kept, joined again
    with the delimiter, are the text that was split: the split and the
    [pop] lose nothing. *)
Theorem messages_and_buffer_rebuild_text (s : str) :
  join [NL; NL] (complete_messages s ++ [trailing s]) = s.
Proof.
  unfold complete_messages, trailing, split.
  rewrite <- app_removelast_last by apply split_from_nonempty.
  now apply join_split_from.
Qed.

Section StreamQueryMore.

Context {JSValue : Type}.
Variable JSON_parse : str -> option JSValue.
Variable error_object : str -> JSValue.
Variable onEvent : SSEEvent JSValue -> option thrown.

Local Abbreviation handle := (handle_message JSON_parse error_object onEvent).
Local Abbreviation callbacks := (callbacks_of JSON_parse error_object onEvent).
Local Abbreviation messages_loop :=
  (for_messages JSON_parse error_object onEvent).
Local Abbreviation reads_loop := (read_loop JSON_parse error_object onEvent).
Local Abbreviation run := (streamQuery JSON_parse error_object onEvent).

Lemma read_loop_buffer_closed (reads : list read_result) (buffer : str) :
  ~ occurs [NL; NL] buffer ->
  ~ occurs [NL; NL] (snd (reads_loop reads buffer)).
Proof.
  revert buffer; induction reads as [|r reads IH]; intros buffer Hb;
    [assumption|].
  destruct r as [chunk| |e]; try assumption.
  cbn [read_loop].
  fold (trailing (buffer ++ chunk)).
  assert (Ht : ~ occurs [NL; NL] (trailing (buffer ++ chunk)))
    by apply complete_messages_nil_iff, complete_messages_trailing.
  destruct (messages_loop _) as [evs [e|]]; [assumption|].
  specialize (IH _ Ht).
  now destruct (reads_loop reads (trailing (buffer ++ chunk))) as [[evs' st] b].
Qed.

(** X2.  Whatever is read and whatever the callback does, the buffer the
    loop keeps never contains the blank-line delimiter: a complete message
    is never left waiting in it. *)
Theorem buffer_never_holds_delimiter (reads : list read_result) :
  ~ occurs [NL; NL] (snd (reads_loop reads [])).
Proof.
  apply read_loop_buffer_closed.
  intros (front & back & H).
  destruct front; discriminate H.
Qed.

Lemma read_loop_without_delimiter (chunks : list str) (buffer : str) :
  ~ occurs [NL; NL] (buffer ++ concat chunks) ->
  reads_loop (map Chunk chunks) buffer =
  ([], Awaiting, buffer ++ concat chunks).
Proof.
  revert buffer; induction chunks as [|c chunks IH]; intros buffer Hno.
  - simpl; now rewrite app_nil_r.
  - cbn [map read_loop concat] in *.
    rewrite app_assoc in Hno.
    assert (Hc : ~ occurs [NL; NL] (buffer ++ c))
      by (intros H; apply Hno; now apply occurs_app).
    unfold split; rewrite split_from_no_occurs by (discriminate || assumption).
    cbn [removelast last for_messages].
    rewrite IH by assumption.
    now rewrite app_assoc.
Qed.

(** X3.  A text in which no two line feeds are adjacent (a stream that ends
    its messages with CR LF CR LF, say) makes no callback at all, whatever
    the callback and however the text is cut: it is kept whole in the
    buffer, and dropped when the stream ends. *)
Theorem no_delimiter_no_callback (chunks : list str) (code : N)
    (rest : list read_result) :
  ~ occurs [NL; NL] (concat chunks) ->
  reads_loop (map Chunk chunks) [] = ([], Awaiting, concat chunks)
  /\ run (streaming code (map Chunk chunks ++ Done :: rest)) = ([], Returned).
Proof.
  intros Hno; split.
  - now rewrite read_loop_without_delimiter.
  - unfold streaming, streamQuery, on_response; cbn [ok body negb].
    rewrite read_loop_stop by discriminate.
    now rewrite read_loop_without_delimiter.
Qed.

(** X4.  A response that is not [ok] makes exactly one callback, the error
    event with the text [HTTP <status>], and one with no body the error
    event [No response body]; no read is made, and the chain returns
    (the callback returning from that call). *)
Theorem bad_response_is_reported_once :
  (forall response,
      ok response = false ->
      onEvent (error_event error_object
                 (lit "HTTP " ++ decimal (http_status response))) = None ->
      run (FetchResolved response) =
      ([error_event error_object
          (lit "HTTP " ++ decimal (http_status response))], Returned))
  /\ (forall code,
        onEvent (error_event error_object (lit "No response body")) = None ->
        run (FetchResolved {| ok := true; http_status := code;
                              body := None |}) =
        ([error_event error_object (lit "No response body")], Returned)).
Proof.
  split.
  - intros response Hok Hcb.
    unfold streamQuery, on_response; rewrite Hok; cbn [negb].
    unfold on_rejection; cbn [name message new_Error].
    change (str_eqb (lit "Error") AbortError) with false; cbn [negb].
    now rewrite Hcb.
  - intros code Hcb.
    unfold streamQuery, on_response; cbn [ok body negb].
    unfold on_rejection; cbn [name message new_Error].
    change (str_eqb (lit "Error") AbortError) with false; cbn [negb].
    now rewrite Hcb.
Qed.

(** X5.  With a callback that returns: when a read is rejected, the
    callbacks are those of the complete messages received before it,
    followed by one error event carrying the rejection's message if the
    rejection is an [Error] not named [AbortError], and by nothing
    otherwise; later reads are not made, the unfinished text in the buffer
    is dropped, and the chain returns. *)
Theorem read_failure_is_reported_once
    (onEvent_returns : forall ev, onEvent ev = None)
    (code : N) (chunks : list str) (error : thrown)
    (rest : list read_result) :
  run (streaming code (map Chunk chunks ++ ReadRejected error :: rest)) =
  (flat_map callbacks (complete_messages (concat chunks))
     ++ (if reported error
         then [error_event error_object (message error)]
         else []),
   Returned).
Proof.
  unfold streaming, streamQuery, on_response, reported; cbn [ok body negb].
  rewrite read_loop_stop by discriminate.
  rewrite read_loop_chunks by (assumption || reflexivity).
  cbn [settle app].
  destruct (instanceof_Error error && negb (str_eqb (name error) AbortError)).
  - now rewrite onEvent_returns.
  - now rewrite app_nil_r.
Qed.

End StreamQueryMore.

Section CallbackThatThrows.

Context {JSValue : Type}.
Variable JSON_parse : str -> option JSValue.
Variable error_object : str -> JSValue.
Variable onEvent : SSEEvent JSValue -> option thrown.

Local Abbreviation handle := (handle_message JSON_parse error_object onEvent).
Local Abbreviation callbacks := (callbacks_of JSON_parse error_object onEvent).
Local Abbreviation messages_loop :=
  (for_messages JSON_parse error_object onEvent).
Local Abbreviation reads_loop := (read_loop JSON_parse error_object onEvent).

(** The callbacks of a message, for any callback. *)
Lemma callbacks_of_any (message : str) :
  callbacks message =
  if truthy (payload_of message) then
    match JSON_parse (payload_of message) with
    | Some parsed =>
        let ev := {| event := event_name_of message; data := parsed |} in
        match onEvent ev with
        | None => [ev]
        | Some _ => [ev; parse_error_event error_object]
        end
    | None => [parse_error_event error_object]
    end
  else [].
Proof.
  unfold callbacks_of.
  destruct (truthy (trim message)) eqn:Eb.
  - unfold handle_message, payload_of, event_name_of; rewrite Eb.
    cbn [negb].
    destruct (scan_lines (split [NL] message)) as [e d]; cbn [fst snd].
    destruct (truthy d); [|reflexivity].
    destruct (JSON_parse d); [|reflexivity].
    now destruct (onEvent _).
  - assert (Hb : trim message = []) by (now destruct (trim message)).
    rewrite handle_message_no_payload
      by (now apply blank_message_payload).
    now rewrite blank_message_payload.
Qed.

Section ErrorEventAccepted.

(** The callback returns when it is given the parse error event. *)
Hypothesis error_event_accepted :
  onEvent (parse_error_event error_object) = None.

Lemma handle_message_contained (message : str) :
  handle message = (callbacks message, None).
Proof.
  unfold callbacks_of, handle_message.
  destruct (truthy (trim message)); [cbn [negb] | reflexivity].
  destruct (scan_lines (split [NL] message)) as [e d].
  destruct (truthy d); [|reflexivity].
  destruct (JSON_parse d) as [parsed|]; rewrite error_event_accepted;
    [|reflexivity].
  now destruct (onEvent {| event := e; data := parsed |}).
Qed.

Lemma for_messages_contained (messages : list str) :
  messages_loop messages = (flat_map callbacks messages, None).
Proof.
  induction messages as [|m ms IH]; [reflexivity|].
  simpl; rewrite handle_message_contained, IH; reflexivity.
Qed.

Lemma read_loop_chunks_contained (chunks : list str) (buffer : str) :
  complete_messages buffer = [] ->
  reads_loop (map Chunk chunks) buffer =
  (flat_map callbacks (complete_messages (buffer ++ concat chunks)),
   Awaiting,
   trailing (buffer ++ concat chunks)).
Proof.
  revert buffer; induction chunks as [|c chunks IH]; intros buffer Hb.
  - simpl; rewrite app_nil_r, Hb, trailing_incomplete by assumption.
    reflexivity.
  - cbn [map read_loop concat].
    fold (complete_messages (buffer ++ c)).
    fold (trailing (buffer ++ c)).
    rewrite for_messages_contained.
    rewrite IH by apply complete_messages_trailing.
    rewrite app_assoc.
    rewrite (complete_messages_app (buffer ++ c)), flat_map_app.
    now rewrite (trailing_app (buffer ++ c)).
Qed.

End ErrorEventAccepted.

(** X6.  The [try] around the callback: if the callback throws on an event
    whose payload was decoded, the same message makes a second callback,
    the error event [Failed to parse SSE data]; as long as the callback
    returns from that one, no exception leaves the message loop, every
    complete message is still handled in order and the loop goes on
    reading. *)
Theorem callback_exception_is_contained
    (error_event_accepted : onEvent (parse_error_event error_object) = None)
    (chunks : list str) :
  reads_loop (map Chunk chunks) [] =
    (flat_map callbacks (complete_messages (concat chunks)),
     Awaiting,
     trailing (concat chunks))
  /\ (forall message parsed e,
        payload_of message <> [] ->
        JSON_parse (payload_of message) = Some parsed ->
        onEvent {| event := event_name_of message; data := parsed |} =
          Some e ->
        handle message =
        ([{| event := event_name_of message; data := parsed |};
          parse_error_event error_object], None)).
Proof.
  split.
  - now rewrite read_loop_chunks_contained.
  - intros message parsed e Hpayload Hparse Hthrow.
    rewrite handle_message_contained, callbacks_of_any by assumption.
    apply truthy_true in Hpayload.
    now rewrite Hpayload, Hparse; cbn zeta; rewrite Hthrow.
Qed.

(** X7.  With a callback that returns: a message with a payload and no
    [event: ] line is delivered under the event name [message]. *)
Theorem event_name_defaults_to_message
    (onEvent_returns : forall ev, onEvent ev = None)
    (message : str) (parsed : JSValue) :
  Forall no_event_line (split [NL] message) ->
  payload_of message <> [] ->
  JSON_parse (payload_of message) = Some parsed ->
  handle message = ([{| event := lit "message"; data := parsed |}], None).
Proof.
  intros Hlines Hpayload Hparse.
  rewrite handle_message_returns, callbacks_of_payload by assumption.
  apply truthy_true in Hpayload; rewrite Hpayload, Hparse.
  unfold event_name_of; now rewrite scan_lines_no_event.
Qed.

End CallbackThatThrows.

(* ------------------------------------------------------------------ *)
(** ** Runs of [appendLog] *)

Lemma appendLog_slice (c : LogCall) (prev : list App.LogEntry) :
  App.appendLog (call_now c) (call_rnd c) (call_date c)
    (call_source c) (call_message c) prev =
  App.slice_last 300 (prev ++ [logged c]).
Proof.
  unfold App.appendLog, App.slice_last; fold (logged c).
  destruct (300 <? length (prev ++ [logged c])) eqn:E; [reflexivity|].
  apply Nat.ltb_ge in E.
  now replace (length (prev ++ [logged c]) - 300) with 0 by lia.
Qed.

Lemma slice_last_app {A : Type} (k : nat) (l r : list A) :
  App.slice_last k (App.slice_last k l ++ r) = App.slice_last k (l ++ r).
Proof.
  unfold App.slice_last.
  destruct (Nat.le_gt_cases (length l) k) as [Hle|Hgt].
  - now replace (length l - k) with 0 by lia.
  - rewrite !length_app, length_skipn.
    replace (length l - (length l - k) + length r - k) with (length r) by lia.
    replace (length l + length r - k) with (length r + (length l - k)) by lia.
    rewrite <- skipn_skipn; f_equal.
    rewrite skipn_app.
    now replace (length l - k - length l) with 0 by lia.
Qed.

Lemma appendLogs_slice (calls : list LogCall) (c : LogCall)
    (prev : list App.LogEntry) :
  appendLogs (c :: calls) prev =
  App.slice_last 300 (prev ++ map logged (c :: calls)).
Proof.
  revert c prev; induction calls as [|c' calls IH]; intros c prev.
  - apply appendLog_slice.
  - change (appendLogs (c :: c' :: calls) prev)
      with (appendLogs (c' :: calls)
              (App.appendLog (call_now c) (call_rnd c) (call_date c)
                 (call_source c) (call_message c) prev)).
    rewrite IH, appendLog_slice, slice_last_app.
    now rewrite <- app_assoc.
Qed.

(** X8.  A run of [appendLog] calls on a list of at most 300 entries leaves
    the last 300 of the old entries followed by the new ones, in order; once
    300 calls have been made nothing of the old list is left. *)
Theorem appendLog_calls_keep_last_300 (calls : list LogCall)
    (prev : list App.LogEntry) :
  length prev <= 300 ->
  appendLogs calls prev = App.slice_last 300 (prev ++ map logged calls)
  /\ length (appendLogs calls prev) = Nat.min 300 (length prev + length calls)
  /\ (300 <= length calls ->
      appendLogs calls prev = App.slice_last 300 (map logged calls)).
Proof.
  intros Hprev.
  assert (Heq : appendLogs calls prev =
                App.slice_last 300 (prev ++ map logged calls)).
  { destruct calls as [|c calls]; [|apply appendLogs_slice].
    unfold App.slice_last; simpl; rewrite app_nil_r.
    now replace (length prev - 300) with 0 by lia. }
  split; [assumption|split].
  - rewrite Heq; unfold App.slice_last.
    rewrite length_skipn, length_app, length_map; lia.
  - intros Hcalls; rewrite Heq; unfold App.slice_last.
    rewrite length_app, length_map, skipn_app.
    replace (length prev + length calls - 300 - length prev)
      with (length calls - 300) by lia.
    rewrite skipn_all2 by lia.
    reflexivity.
Qed.

(* ------------------------------------------------------------------ *)
(** ** The logger *)

(** X9.  Whatever [VITE_LOG_LEVEL] holds, a new logger lets nothing below
    [INFO] through: [DEBUG] is 0, which [||] replaces by [INFO], and a value
    that is not a member name leaves either [INFO] or a level that is not a
    number, under which nothing is logged.  Debug output needs [setLevel]. *)
Theorem new_logger_never_logs_debug (inherited : str -> bool)
    (VITE_LOG_LEVEL : option str) (lvl : N) :
  shouldLog (Logger_new inherited VITE_LOG_LEVEL) lvl = true ->
  (LogLevel.INFO <= lvl)%N.
Proof.
  unfold shouldLog, Logger_new, LogLevel_get; cbn [level].
  set (envLevel := match VITE_LOG_LEVEL with
                   | Some s => if truthy s then s else lit "INFO"
                   | None => lit "INFO"
                   end).
  assert (Hle : forall n, (n <> 0)%N -> (n <=? lvl)%N = true ->
                          (LogLevel.INFO <= lvl)%N).
  { intros n Hn H; apply N.leb_le in H; unfold LogLevel.INFO; lia. }
  destruct (str_eqb envLevel (lit "DEBUG")); [now apply (Hle 1%N)|].
  destruct (str_eqb envLevel (lit "INFO")); [now apply (Hle 1%N)|].
  destruct (str_eqb envLevel (lit "WARN")); [now apply (Hle 2%N)|].
  destruct (str_eqb envLevel (lit "ERROR")); [now apply (Hle 3%N)|].
  destruct (str_eqb envLevel (lit "NONE")); [now apply (Hle 99%N)|].
  destruct (str_eqb envLevel (lit "0")); [discriminate|].
  destruct (str_eqb envLevel (lit "1")); [discriminate|].
  destruct (str_eqb envLevel (lit "2")); [discriminate|].
  destruct (str_eqb envLevel (lit "3")); [discriminate|].
  destruct (str_eqb envLevel (lit "99")); [discriminate|].
  destruct (inherited envLevel); [discriminate | now apply (Hle 1%N)].
Qed.

Lemma all_below_spec (k : nat) (P : N -> bool) :
  all_below k P = true -> forall n, (n < N.of_nat k)%N -> P n = true.
Proof.
  unfold all_below; intros H n Hn.
  rewrite forallb_forall in H.
  specialize (H (N.to_nat n)); rewrite N2Nat.id in H.
  apply H, in_seq; lia.
Qed.

Lemma padStart_two_digits (n : N) :
  (n < 100)%N -> length (padStart 2 (lit "0") (decimal n)) = 2.
Proof.
  intros Hn; apply Nat.eqb_eq.
  apply (all_below_spec 100
           (fun n => length (padStart 2 (lit "0") (decimal n)) =? 2));
    [vm_compute; reflexivity | assumption].
Qed.

Lemma padStart_three_digits (n : N) :
  (n < 1000)%N -> length (padStart 3 (lit "0") (decimal n)) = 3.
Proof.
  intros Hn; apply Nat.eqb_eq.
  apply (all_below_spec 1000
           (fun n => length (padStart 3 (lit "0") (decimal n)) =? 3));
    [vm_compute; reflexivity | assumption].
Qed.

Lemma formatTimestamp_shape (hours minutes seconds ms : N) :
  (hours < 24)%N -> (minutes < 60)%N -> (seconds < 60)%N -> (ms < 1000)%N ->
  length (formatTimestamp hours minutes seconds ms) = 12
  /\ nth 2 (formatTimestamp hours minutes seconds ms) 0%N = 58%N
  /\ nth 5 (formatTimestamp hours minutes seconds ms) 0%N = 58%N
  /\ nth 8 (formatTimestamp hours minutes seconds ms) 0%N = 46%N.
Proof.
  intros Hh Hm Hs Hms; unfold formatTimestamp.
  pose proof (padStart_two_digits hours ltac:(lia)) as H1.
  pose proof (padStart_two_digits minutes ltac:(lia)) as H2.
  pose proof (padStart_two_digits seconds ltac:(lia)) as H3.
  pose proof (padStart_three_digits ms Hms) as H4.
  destruct (padStart 2 (lit "0") (decimal hours)) as [|a1 [|a2 [|]]];
    try discriminate H1.
  destruct (padStart 2 (lit "0") (decimal minutes)) as [|b1 [|b2 [|]]];
    try discriminate H2.
  destruct (padStart 2 (lit "0") (decimal seconds)) as [|c1 [|c2 [|]]];
    try discriminate H3.
  destruct (padStart 3 (lit "0") (decimal ms)) as [|d1 [|d2 [|d3 [|]]]];
    try discriminate H4.
  repeat split; reflexivity.
Qed.

(** X10.  For the values the getters of a date give, [formatTimestamp] is
    12 characters long with the separators in place, [HH:MM:SS.mmm]; a new
    logger puts it first, in brackets, of the three parts of every
    message. *)
Theorem formatTimestamp_fixed_width (hours minutes seconds ms : N) :
  (hours < 24)%N -> (minutes < 60)%N -> (seconds < 60)%N -> (ms < 1000)%N ->
  let stamp := formatTimestamp hours minutes seconds ms in
  length stamp = 12
  /\ nth 2 stamp 0%N = 58%N
  /\ nth 5 stamp 0%N = 58%N
  /\ nth 8 stamp 0%N = 46%N
  /\ (forall inherited env lvl message,
        formatMessage (Logger_new inherited env) hours minutes seconds ms
          lvl message =
        [lit "[" ++ stamp ++ lit "]"; lit "[" ++ lvl ++ lit "]"; message]).
Proof.
  intros Hh Hm Hs Hms stamp.
  destruct (formatTimestamp_shape hours minutes seconds ms Hh Hm Hs Hms)
    as (H1 & H2 & H3 & H4).
  repeat split; (assumption || reflexivity).
Qed.

(* ------------------------------------------------------------------ *)
(** ** More on [trim] *)

Example literal_code_units :
  literal "툴 호출 · " = [53812; 32; 54840; 52636; 32; 183; 32]%N
  /\ literal "…" = [8230%N]
  /\ literal "adk.event" = lit "adk.event".
Proof. repeat split; reflexivity. Qed.

Lemma trimStart_head (s : str) :
  match trimStart s with
  | [] => True
  | c :: _ => is_space c = false
  end.
Proof.
  induction s as [|c s IH]; simpl; [trivial|].
  destruct (is_space c) eqn:E; [assumption | exact E].
Qed.

Lemma trimStart_idem (s : str) : trimStart (trimStart s) = trimStart s.
Proof.
  pose proof (trimStart_head s) as H.
  destruct (trimStart s) as [|c r]; [reflexivity|].
  simpl; now rewrite H.
Qed.

Lemma trimStart_app (a b : str) :
  trimStart (a ++ b) =
  if forallb is_space a then trimStart b else trimStart a ++ b.
Proof.
  induction a as [|c a IH]; simpl; [reflexivity|].
  destruct (is_space c); simpl; [assumption | reflexivity].
Qed.

Lemma trimStart_keeps (p x : str) :
  trimStart p = p -> p <> [] -> trimStart (p ++ x) = p ++ x.
Proof.
  intros Hp Hne.
  pose proof (trimStart_head p) as H; rewrite Hp in H.
  destruct p as [|c r]; [congruence|].
  simpl; now rewrite H.
Qed.

Lemma trimEnd_idem (s : str) : trimEnd (trimEnd s) = trimEnd s.
Proof. unfold trimEnd; now rewrite rev_involutive, trimStart_idem. Qed.

Lemma trimEnd_keeps (x p : str) :
  trimEnd p = p -> p <> [] -> trimEnd (x ++ p) = x ++ p.
Proof.
  unfold trimEnd; intros Hp Hne.
  assert (Hr : trimStart (rev p) = rev p).
  { apply (f_equal (@rev code_unit)) in Hp.
    now rewrite rev_involutive in Hp. }
  rewrite rev_app_distr, trimStart_keeps; try assumption.
  - now rewrite <- rev_app_distr, rev_involutive.
  - intros H; apply Hne.
    apply (f_equal (@rev code_unit)) in H.
    now rewrite rev_involutive in H.
Qed.

Lemma trimEnd_of_headed (c : code_unit) (r : str) :
  is_space c = false -> exists r', trimEnd (c :: r) = c :: r'.
Proof.
  intros Hc; unfold trimEnd; simpl.
  rewrite trimStart_app.
  destruct (forallb is_space (rev r)).
  - simpl; rewrite Hc; now exists [].
  - rewrite rev_app_distr; simpl; eauto.
Qed.

Lemma trim_tight (s : str) : tight (trim s).
Proof.
  unfold tight, trim; split; [|apply trimEnd_idem].
  pose proof (trimStart_head s) as H.
  destruct (trimStart s) as [|c r]; [reflexivity|].
  destruct (trimEnd_of_headed c r H) as [r' ->].
  simpl; now rewrite H.
Qed.

Lemma tight_trim (s : str) : tight s -> trim s = s.
Proof. intros [H1 H2]; unfold trim; now rewrite H1. Qed.

Lemma trim_idem (s : str) : trim (trim s) = trim s.
Proof. apply tight_trim, trim_tight. Qed.

Lemma join_nonempty (sep : str) (parts : list str) :
  parts <> [] -> Forall (fun p => p <> []) parts -> join sep parts <> [].
Proof.
  intros Hne Hall; destruct parts as [|p [|q l]]; [congruence | |].
  - now inversion Hall.
  - inversion Hall as [|? ? Hp _]; subst.
    cbn [join]; destruct p; [congruence | discriminate].
Qed.

(** Joining tight, non-empty parts gives a tight, non-empty text. *)
Lemma join_tight (sep : str) (parts : list str) :
  parts <> [] ->
  Forall (fun p => p <> [] /\ tight p) parts ->
  join sep parts <> [] /\ tight (join sep parts).
Proof.
  intros Hne Hall.
  induction parts as [|p parts IH]; [congruence|].
  inversion Hall as [|? ? [Hp [Hs He]] Hrest]; subst.
  destruct parts as [|q l]; [now repeat split|].
  destruct (IH ltac:(discriminate) Hrest) as [Hj [_ Hje]].
  change (join sep (p :: q :: l)) with (p ++ sep ++ join sep (q :: l)).
  split; [destruct p; [congruence | discriminate]|].
  split.
  - now apply trimStart_keeps.
  - rewrite !app_assoc; now apply trimEnd_keeps.
Qed.

(* ------------------------------------------------------------------ *)
(** ** The inspector's reading of stream events *)

Section InspectorFacts.

Import Inspector.

Context {number : Type}.
Variable has_property : value number -> str -> bool.
Variable get_property : value number -> str -> value number.
Variable toLowerCase : str -> str.
Variable JSON_stringify : value number -> option str.
Variable number_truthy : number -> bool.
Variable number_toString : number -> str.

Local Abbreviation walk_path :=
  (walk has_property get_property number_truthy).
Local Abbreviation pick :=
  (pickDeepString has_property get_property number_truthy).
Local Abbreviation extract :=
  (extractContentText has_property get_property number_truthy).
Local Abbreviation fallback := (stringifyFallback JSON_stringify).
Local Abbreviation derive :=
  (deriveConversationEntry has_property get_property toLowerCase
     JSON_stringify number_truthy number_toString).

Lemma nonblank_string_tight (v : value number) (s : str) :
  nonblank_string v = Some s ->
  s <> [] /\ tight s /\ exists raw, v = VString raw /\ s = trim raw.
Proof.
  destruct v as [| | | |raw| | |]; simpl; try discriminate.
  destruct (truthy (trim raw)) eqn:E; [|discriminate].
  intros H; injection H as <-.
  split; [now apply truthy_true|].
  split; [apply trim_tight | eauto].
Qed.

(** X11.  [pickDeepString] gives, trimmed, the string at the end of the
    first path that leads to a string with something other than white space
    in it: its result is never empty and has no white space at either end;
    it gives [null] exactly when no path leads to such a string. *)
Theorem pickDeepString_first_nonblank (source : value number)
    (paths : list (list str)) :
  (forall s,
      pick source paths = Some s ->
      s <> [] /\ trim s = s
      /\ exists before path after raw,
           paths = before ++ path :: after
           /\ Forall (fun p => nonblank_string (walk_path source p) = None)
                before
           /\ walk_path source path = VString raw
           /\ s = trim raw)
  /\ (pick source paths = None <->
      Forall (fun p => nonblank_string (walk_path source p) = None) paths).
Proof.
  induction paths as [|path paths [IHsome IHnone]].
  - split; [discriminate|]. split; constructor.
  - cbn [pickDeepString].
    destruct (nonblank_string (walk_path source path)) as [s0|] eqn:E.
    + split.
      * intros s H; injection H as <-.
        destruct (nonblank_string_tight _ _ E) as (Hne & Ht & raw & Hw & Hs).
        split; [assumption|]. split; [now apply tight_trim|].
        exists [], path, paths, raw; repeat split; auto.
      * split; [discriminate|].
        intros H; inversion H; congruence.
    + split.
      * intros s H.
        destruct (IHsome s H)
          as (Hne & Ht & before & p & after & raw & -> & Hb & Hw & Hs).
        split; [assumption|]. split; [assumption|].
        exists (path :: before), p, after, raw; repeat split; auto.
      * rewrite IHnone; split; intros H; [now constructor|now inversion H].
Qed.

Lemma pick_given (source : value number) (paths : list (list str)) :
  given (pick source paths) =
  match pick source paths with Some _ => true | None => false end.
Proof.
  destruct (pick source paths) as [s|] eqn:E; [|reflexivity].
  apply (proj1 (pickDeepString_first_nonblank source paths)) in E
    as [Hne _].
  now apply truthy_true.
Qed.

Lemma option_nonblank_tight (v : value number) :
  Forall (fun p => p <> [] /\ tight p) (option_list (nonblank_string v)).
Proof.
  destruct (nonblank_string v) as [s|] eqn:E; [|constructor].
  apply nonblank_string_tight in E as (Hne & Ht & _).
  simpl; constructor; [split; assumption | constructor].
Qed.

Lemma part_text_tight (part : value number) :
  Forall (fun p => p <> [] /\ tight p)
    (part_text has_property get_property number_truthy part).
Proof.
  unfold part_text.
  match goal with |- context [if ?c then _ else _] => destruct c end;
    [apply option_nonblank_tight | constructor].
Qed.

Lemma Forall_flat_map {A B : Type} (P : B -> Prop) (f : A -> list B)
    (l : list A) :
  (forall a, Forall P (f a)) -> Forall P (flat_map f l).
Proof.
  intros H; induction l as [|a l IH]; simpl; [constructor|].
  apply Forall_app; auto.
Qed.

(** X12.  The text [extractContentText] returns is never empty and has no
    white space at either end: trimming it again changes nothing. *)
Theorem extractContentText_is_trimmed (payload : value number) (t : str) :
  extract payload = Ok (Some t) -> t <> [] /\ trim t = t.
Proof.
  unfold extractContentText.
  destruct (nullish payload); [discriminate|].
  set (parts := _ ++ _).
  assert (Hall : Forall (fun p => p <> [] /\ tight p) parts).
  { subst parts; apply Forall_app; split.
    - destruct (optional_get _ _ _) as [| | | | |items| |];
        try apply option_nonblank_tight.
      apply Forall_flat_map, part_text_tight.
    - apply Forall_flat_map; intros key; apply option_nonblank_tight. }
  destruct (0 <? length parts) eqn:E; [|discriminate].
  intros H; injection H as <-.
  assert (Hne : parts <> []).
  { apply Nat.ltb_lt in E; destruct parts; [simpl in E; lia | discriminate]. }
  destruct (join_tight [NL; NL] parts Hne Hall) as [Hj Ht].
  split; [assumption | now apply tight_trim].
Qed.

(** X13.  The fallback body is the JSON text when that has at most 600
    code units, and is never longer than 601. *)
Theorem stringifyFallback_is_bounded (payload : value number) :
  length (fallback payload) <= MAX_BODY_LENGTH + 1
  /\ (forall raw,
        JSON_stringify payload = Some raw ->
        length raw <= MAX_BODY_LENGTH ->
        fallback payload = raw).
Proof.
  unfold stringifyFallback; split.
  - destruct (JSON_stringify payload) as [raw|]; [|vm_compute; lia].
    destruct (MAX_BODY_LENGTH <? length raw) eqn:E.
    + rewrite length_app, length_firstn.
      change (length (literal "…")) with 1; lia.
    + apply Nat.ltb_ge in E; lia.
  - intros raw -> Hlen.
    apply Nat.ltb_ge in Hlen; now rewrite Hlen.
Qed.

End InspectorFacts.

Lemma str_eqb_eq (a b : str) : str_eqb a b = true <-> a = b.
Proof.
  split; [|intros ->; apply str_eqb_refl].
  revert b; induction a as [|x a IH]; intros [|y b]; simpl;
    try discriminate; [reflexivity|].
  intros H; apply andb_true_iff in H as [Hx Hab].
  apply N.eqb_eq in Hx; subst y; f_equal; now apply IH.
Qed.

Section ConversationEntries.

Import Inspector.

Context {number : Type}.
Variable has_property : value number -> str -> bool.
Variable get_property : value number -> str -> value number.
Variable toLowerCase : str -> str.
Variable JSON_stringify : value number -> option str.
Variable number_truthy : number -> bool.
Variable number_toString : number -> str.

Local Abbreviation pick :=
  (pickDeepString has_property get_property number_truthy).
Local Abbreviation extract :=
  (extractContentText has_property get_property number_truthy).
Local Abbreviation fallback := (stringifyFallback JSON_stringify).
Local Abbreviation derive :=
  (deriveConversationEntry has_property get_property toLowerCase
     JSON_stringify number_truthy number_toString).

Lemma actor_fallbacks_idle (name : str) (author r t : option str) :
  (forall s, r = Some s -> s <> []) ->
  (forall s, t = Some s -> s <> []) ->
  actor_fallbacks (actor_by_author name author r t) r t =
  actor_by_author name author r t.
Proof.
  intros Hr Ht.
  assert (Hr' : match r with Some s => truthy s = true | None => True end).
  { destruct r as [s|]; [|trivial]. now apply truthy_true, Hr. }
  assert (Ht' : match t with Some s => truthy s = true | None => True end).
  { destruct t as [s|]; [|trivial]. now apply truthy_true, Ht. }
  unfold actor_fallbacks, actor_by_author.
  destruct (is_author author "user");
    [destruct r, t; reflexivity|].
  destruct (is_author author "agent" || is_author author "assistant");
    [destruct r, t; reflexivity|].
  destruct (is_author author "tool");
    [destruct r, t; cbn [fst is_unknown andb]; try rewrite Ht'; reflexivity|].
  destruct (is_author author "system");
    [destruct r, t; reflexivity|].
  destruct r as [rs|], t as [ts|]; cbn [fst is_unknown andb];
    try rewrite Hr'; try rewrite Ht'; reflexivity.
Qed.

Lemma pick_nonempty (source : value number) (paths : list (list str))
    (s : str) :
  pick source paths = Some s -> s <> [].
Proof.
  intros H.
  now apply (proj1 (pickDeepString_first_nonblank has_property get_property
                      number_truthy source paths)) in H as [Hne _].
Qed.

Lemma extract_defined (payload : value number) :
  nullish payload = false -> exists o, extract payload = Ok o.
Proof.
  unfold extractContentText; intros ->.
  match goal with |- context [if ?c then _ else _] => destruct c end; eauto.
Qed.

(** X14.  [deriveConversationEntry] gives [null] for every event that is
    not named [adk.event]; for an [adk.event] with a payload it always gives
    an entry, whose body is the extracted text whenever there is one (the
    second trim and test never matter) and the JSON fallback otherwise. *)
Theorem deriveConversationEntry_body (event : StreamEvent number) :
  (event_name event <> lit "adk.event" -> derive event = Ok None)
  /\ (event_name event = lit "adk.event" ->
      nullish (payload event) = false ->
      exists entry,
        derive event = Ok (Some entry)
        /\ body entry =
           match extract (payload event) with
           | Ok (Some t) => t
           | _ => fallback (payload event)
           end
        /\ entry_id entry = number_toString (sequence event)
        /\ entry_timestamp entry = event_timestamp event
        /\ raw entry = payload event).
Proof.
  unfold deriveConversationEntry; split.
  - intros Hname.
    destruct (str_eqb (event_name event) (lit "adk.event")) eqn:E;
      [|reflexivity].
    now apply str_eqb_eq in E.
  - intros Hname Hpayload.
    rewrite Hname, str_eqb_refl, Hpayload; cbn [negb].
    destruct (extract_defined _ Hpayload) as [o Ho]; rewrite Ho.
    eexists; split; [reflexivity|].
    cbn [body entry_id entry_timestamp raw]; repeat split.
    destruct o as [t|]; [|reflexivity].
    apply extractContentText_is_trimmed in Ho as [Hne Ht].
    apply truthy_true in Hne; now rewrite Ht, Hne.
Qed.

(** X15.  The actor and the title of an entry are those the [if] chain on
    the author, the remote agent and the tool name chooses: the two
    [if (actor === "unknown" && ...)] after it never change them.  The actor
    is [unknown] exactly when the author is none of user, agent, assistant,
    tool and system and neither a remote agent nor a tool name is found. *)
Theorem deriveConversationEntry_actor (event : StreamEvent number)
    (entry : ConversationEntry number) :
  derive event = Ok (Some entry) ->
  let author := author_of get_property toLowerCase (payload event) in
  let remoteAgent := pick (payload event) remoteAgent_paths in
  let toolName := pick (payload event) toolName_paths in
  (actor entry, title entry) =
    actor_by_author (event_name event) author remoteAgent toolName
  /\ (actor entry = actor_unknown <->
      is_author author "user" = false
      /\ is_author author "agent" = false
      /\ is_author author "assistant" = false
      /\ is_author author "tool" = false
      /\ is_author author "system" = false
      /\ remoteAgent = None /\ toolName = None).
Proof.
  intros H author r t.
  unfold deriveConversationEntry in H.
  fold author in H; fold r in H; fold t in H.
  assert (Hrne : forall s, r = Some s -> s <> [])
    by (intros s Hs; exact (pick_nonempty _ _ _ Hs)).
  assert (Htne : forall s, t = Some s -> s <> [])
    by (intros s Hs; exact (pick_nonempty _ _ _ Hs)).
  clearbody author r t.
  destruct (negb _); [discriminate|].
  destruct (nullish (payload event)); [discriminate|].
  destruct (extract (payload event)) as [o|]; [|discriminate].
  injection H as <-; cbn [actor title].
  rewrite actor_fallbacks_idle by assumption.
  split; [now destruct (actor_by_author _ _ _ _)|].
  assert (Hr : match r with Some s => truthy s = true | None => True end).
  { destruct r as [s|]; [|trivial]. now apply truthy_true, Hrne. }
  assert (Ht : match t with Some s => truthy s = true | None => True end).
  { destruct t as [s|]; [|trivial]. now apply truthy_true, Htne. }
  unfold actor_by_author.
  destruct (is_author author "user");
    [split; [discriminate | intros (? & _); discriminate]|].
  destruct (is_author author "agent");
    [split; [discriminate | intros (_ & ? & _); discriminate]|].
  destruct (is_author author "assistant");
    [split; [discriminate | intros (_ & _ & ? & _); discriminate]|].
  cbn [orb].
  destruct (is_author author "tool");
    [split; [discriminate | intros (_ & _ & _ & ? & _); discriminate]|].
  destruct (is_author author "system");
    [split; [discriminate | intros (_ & _ & _ & _ & ? & _); discriminate]|].
  destruct r as [rs|]; [rewrite Hr|];
    (destruct t as [ts|]; [try rewrite Ht|]); cbn [fst];
    split; try discriminate; try tauto;
    intros (_ & _ & _ & _ & _ & ? & ?); discriminate.
Qed.

End ConversationEntries.

Section EntryBadges.

Import Inspector.

Context {number : Type}.
Variable has_property : value number -> str -> bool.
Variable get_property : value number -> str -> value number.
Variable number_truthy : number -> bool.

(** X16.  An entry has at most four badges; [remote] is among them whenever
    a remote agent was found and [tool] whenever a tool name was, and
    neither is ever there twice. *)
Theorem entry_badges_are_not_repeated (payload : value number)
    (remoteAgent toolName : option str) :
  let badges :=
    entry_badges has_property get_property number_truthy payload
      remoteAgent toolName in
  length badges <= 4
  /\ (given remoteAgent = true -> includes badges (lit "remote") = true)
  /\ (given toolName = true -> includes badges (lit "tool") = true)
  /\ length (filter (str_eqb (lit "remote")) badges) <= 1
  /\ length (filter (str_eqb (lit "tool")) badges) <= 1.
Proof.
  assert (E1 : str_eqb (lit "remote") (lit "turn-complete") = false)
    by reflexivity.
  assert (E2 : str_eqb (lit "tool") (lit "turn-complete") = false)
    by reflexivity.
  assert (E3 : str_eqb (lit "tool") (lit "remote") = false) by reflexivity.
  assert (E4 : str_eqb (lit "remote") (lit "tool") = false) by reflexivity.
  unfold entry_badges.
  destruct (truthy_value number_truthy (get_property payload (lit "turnComplete")));
    destruct (pickDeepString has_property get_property number_truthy
                payload status_paths) as [s|];
    cbn [given option_list app];
    try destruct (truthy s);
    destruct (given remoteAgent), (given toolName);
    try (destruct (str_eqb (lit "remote") s) eqn:Er;
         destruct (str_eqb (lit "tool") s) eqn:Et);
    repeat (progress
              (cbn [andb negb includes existsb app orb filter length];
               rewrite ?Er, ?Et, ?E1, ?E2, ?E3, ?E4, ?str_eqb_refl));
    repeat split; intros; try reflexivity; try discriminate; try lia.
Qed.

End EntryBadges.

(* ------------------------------------------------------------------ *)
(** ** Template categories and agents *)

Lemma getTemplateCategory_range (inherited : str -> bool) (id : str) :
  Templates.same_category (Templates.getTemplateCategory inherited id)
    Templates.product = false
  /\ Templates.same_category (Templates.getTemplateCategory inherited id)
       Templates.governance = false.
Proof.
  unfold Templates.getTemplateCategory, Templates.TEMPLATE_CATEGORY_MAP.
  cbn [Templates.own].
  repeat match goal with
         | |- context [if str_eqb id ?k then _ else _] =>
             destruct (str_eqb id k); [split; reflexivity|]
         end.
  destruct (inherited id); split; reflexivity.
Qed.

(** X17.  No template is ever put in the categories [product] or
    [governance]: whatever the server lists, those two filters show
    nothing, and the filter [all] shows every template. *)
Theorem product_and_governance_filters_are_empty (inherited : str -> bool)
    (A : Type) (rawTemplates : list (str * A)) :
  Templates.filteredTemplates (Templates.only Templates.product)
    (Templates.categorize inherited rawTemplates) = []
  /\ Templates.filteredTemplates (Templates.only Templates.governance)
       (Templates.categorize inherited rawTemplates) = []
  /\ length (Templates.filteredTemplates Templates.all
               (Templates.categorize inherited rawTemplates)) =
     length rawTemplates.
Proof.
  unfold Templates.filteredTemplates, Templates.categorize.
  split; [|split]; [| |apply length_map].
  - induction rawTemplates as [|t ts IH]; [reflexivity|].
    cbn [map filter Templates.category].
    now rewrite (proj1 (getTemplateCategory_range inherited (fst t))).
  - induction rawTemplates as [|t ts IH]; [reflexivity|].
    cbn [map filter Templates.category].
    now rewrite (proj2 (getTemplateCategory_range inherited (fst t))).
Qed.

Section AgentFacts.

Import Inspector.

Context {number : Type}.
Variable get_property : value number -> str -> value number.
Variable toLowerCase : str -> str.

Lemma toStringArray_nonblank (v : value number) :
  Forall (fun s => trim s <> []) (Api.toStringArray v).
Proof.
  destruct v as [| | | | |items| |]; try constructor.
  unfold Api.toStringArray.
  apply Forall_flat_map; intros [| | | |s| | |]; try constructor.
  destruct (0 <? length (trim s)) eqn:E; [|constructor].
  constructor; [|constructor].
  apply Nat.ltb_lt in E; destruct (trim s); [simpl in E; lia | discriminate].
Qed.

Lemma non_empty_spec (l l' : list str) :
  Api.non_empty l = Some l' -> l' = l /\ l <> [].
Proof.
  unfold Api.non_empty; destruct l; simpl; [discriminate|].
  intros H; injection H as <-; split; [reflexivity | discriminate].
Qed.

Lemma toAgentMetadata_valid (v : value number) (m : Api.AgentMetadata) :
  Api.toAgentMetadata get_property v = Some m ->
  Api.key m <> [] /\ Api.display_name m <> []
  /\ Api.description m <> [] /\ Api.focus m <> []
  /\ (forall l, Api.strengths m = Some l ->
                l <> [] /\ Forall (fun s => trim s <> []) l)
  /\ (forall l, Api.keywords m = Some l ->
                l <> [] /\ Forall (fun s => trim s <> []) l).
Proof.
  unfold Api.toAgentMetadata.
  destruct (negb (Api.isRecord v)); [discriminate|].
  destruct (Api.string_or_undefined (get_property v (lit "key")))
    as [k|]; [|discriminate].
  destruct (Api.string_or_undefined (get_property v (lit "display_name")))
    as [n|]; [|discriminate].
  destruct (Api.string_or_undefined (get_property v (lit "description")))
    as [d|]; [|discriminate].
  destruct (Api.string_or_undefined (get_property v (lit "focus")))
    as [f|]; [|discriminate].
  destruct (truthy k) eqn:Ek; [|discriminate].
  destruct (truthy n) eqn:En; [|discriminate].
  destruct (truthy d) eqn:Ed; [|discriminate].
  destruct (truthy f) eqn:Ef; [|discriminate].
  cbn [negb orb]; intros H; injection H as <-.
  cbn [Api.key Api.display_name Api.description Api.focus
       Api.strengths Api.keywords].
  do 4 (split; [now apply truthy_true|]).
  split; intros l Hl; apply non_empty_spec in Hl as [-> Hne];
    (split; [assumption | apply toStringArray_nonblank]).
Qed.

(** X18.  Every agent [getAgents] returns has a non-empty key, display
    name, description and focus, and its strengths and keywords, when
    present, are non-empty lists of strings that are not blank; what does
    not pass is left out, so there are at most as many agents as elements in
    the response, and none when the response is not an array. *)
Theorem getAgents_returns_valid_agents (data : value number) :
  (forall agent,
      In agent (Api.getAgents get_property toLowerCase data) ->
      let m := Api.metadata agent in
      Api.key m <> [] /\ Api.display_name m <> []
      /\ Api.description m <> [] /\ Api.focus m <> []
      /\ (forall l, Api.strengths m = Some l ->
                    l <> [] /\ Forall (fun s => trim s <> []) l)
      /\ (forall l, Api.keywords m = Some l ->
                    l <> [] /\ Forall (fun s => trim s <> []) l))
  /\ (forall items,
        data = VArray items ->
        length (Api.getAgents get_property toLowerCase data) <= length items)
  /\ ((forall items, data <> VArray items) ->
      Api.getAgents get_property toLowerCase data = []).
Proof.
  split; [|split].
  - intros agent Hin m; subst m.
    destruct data as [| | | | |items| |]; try contradiction.
    cbn [Api.getAgents] in Hin.
    apply in_flat_map in Hin as (v & _ & Hv).
    unfold Api.toAgentSummary in Hv.
    destruct (negb (Api.isRecord v)); [contradiction|].
    destruct (Api.toAgentMetadata get_property v) as [m|] eqn:Em;
      [|contradiction].
    destruct Hv as [<-|[]]; cbn [Api.metadata].
    now apply (toAgentMetadata_valid v).
  - intros items ->; cbn [Api.getAgents].
    induction items as [|v items IH]; [simpl; lia|].
    cbn [flat_map]; rewrite length_app.
    destruct (Api.toAgentSummary get_property toLowerCase v); simpl; lia.
  - intros H; destruct data as [| | | | |items| |]; try reflexivity.
    now destruct (H items).
Qed.

End AgentFacts.

(* ------------------------------------------------------------------ *)
(** ** The further properties on examples *)

Lemma no_delimiter_no_callback_witness :
  read_loop sample_parse JErrorObject quiet (map Chunk crlf_chunks) [] =
    ([], Awaiting, concat crlf_chunks)
  /\ streamQuery sample_parse JErrorObject quiet
       (streaming 200 (map Chunk crlf_chunks ++ Done :: [])) = ([], Returned).
Proof.
  apply (no_delimiter_no_callback sample_parse JErrorObject quiet
           crlf_chunks 200 []).
  apply complete_messages_nil_iff; reflexivity.
Defined.

Lemma bad_response_is_reported_once_witness :
  streamQuery sample_parse JErrorObject quiet
    (FetchResolved {| ok := false; http_status := 503;
                      body := Some [Chunk (ln "data: {}" ++ [NL])] |}) =
    ([sse "error" (JErrorObject (lit "HTTP 503"))], Returned)
  /\ streamQuery sample_parse JErrorObject quiet
       (FetchResolved {| ok := true; http_status := 200; body := None |}) =
     ([sse "error" (JErrorObject (lit "No response body"))], Returned).
Proof.
  destruct (bad_response_is_reported_once sample_parse JErrorObject quiet)
    as [Hstatus Hbody].
  split.
  - apply (Hstatus {| ok := false; http_status := 503;
                      body := Some [Chunk (ln "data: {}" ++ [NL])] |});
      reflexivity.
  - apply (Hbody 200%N); reflexivity.
Defined.

Lemma read_failure_is_reported_once_witness :
  streamQuery sample_parse JErrorObject quiet
    (streaming 200
       (map Chunk sample_chunks
          ++ ReadRejected network_error :: [Chunk (ln "ll" ++ [NL])])) =
  ([sse "a" JEmptyObject; sse "message" (JBool true);
    sse "error" (JErrorObject (lit "network error"))], Returned).
Proof.
  apply (read_failure_is_reported_once sample_parse JErrorObject quiet
           (fun _ => eq_refl) 200 sample_chunks network_error
           [Chunk (ln "ll" ++ [NL])]).
Defined.

Lemma callback_exception_is_contained_witness :
  read_loop sample_parse JErrorObject touchy (map Chunk sample_chunks) [] =
    ([sse "a" JEmptyObject;
      sse "error" (JErrorObject (lit "Failed to parse SSE data"));
      sse "message" (JBool true);
      sse "error" (JErrorObject (lit "Failed to parse SSE data"))],
     Awaiting,
     lit "data: nu")
  /\ handle_message sample_parse JErrorObject touchy (lit "data: null") =
     ([sse "message" JNull;
       sse "error" (JErrorObject (lit "Failed to parse SSE data"))], None).
Proof.
  destruct (callback_exception_is_contained sample_parse JErrorObject touchy
              eq_refl sample_chunks) as [Hloop Hmessage].
  split; [exact Hloop|].
  apply (Hmessage (lit "data: null") JNull (new_Error (lit "handler failed")));
    [vm_compute; discriminate | reflexivity | reflexivity].
Defined.

Lemma event_name_defaults_to_message_witness :
  handle_message sample_parse JErrorObject quiet
    (ln "id: 4" ++ lit "data: true") =
  ([sse "message" (JBool true)], None).
Proof.
  apply (event_name_defaults_to_message sample_parse JErrorObject quiet
           (fun _ => eq_refl) (ln "id: 4" ++ lit "data: true") (JBool true)).
  - repeat constructor.
  - vm_compute; discriminate.
  - reflexivity.
Defined.

Lemma appendLog_calls_keep_last_300_witness :
  let calls :=
    [{| call_now := 1700000000000; call_rnd := lit "8f3a"; call_date := 1;
        call_source := App.frontend; call_message := lit "start" |};
     {| call_now := 1700000000005; call_rnd := lit "c01d"; call_date := 2;
        call_source := App.backend; call_message := lit "done" |}] in
  appendLogs calls [] = App.slice_last 300 ([] ++ map logged calls)
  /\ length (appendLogs calls []) = Nat.min 300 (length (@nil App.LogEntry) + length calls)
  /\ (300 <= length calls ->
      appendLogs calls [] = App.slice_last 300 (map logged calls)).
Proof.
  intros calls.
  apply (appendLog_calls_keep_last_300 calls []).
  simpl; lia.
Defined.

Lemma new_logger_never_logs_debug_witness :
  (LogLevel.INFO <= LogLevel.ERROR)%N.
Proof.
  apply (new_logger_never_logs_debug (fun _ => false) (Some (lit "WARN"))
           LogLevel.ERROR).
  reflexivity.
Defined.

Lemma formatTimestamp_fixed_width_witness :
  let stamp := formatTimestamp 9 5 0 42 in
  length stamp = 12
  /\ nth 2 stamp 0%N = 58%N
  /\ nth 5 stamp 0%N = 58%N
  /\ nth 8 stamp 0%N = 46%N
  /\ (forall inherited env lvl message,
        formatMessage (Logger_new inherited env) 9 5 0 42 lvl message =
        [lit "[" ++ stamp ++ lit "]"; lit "[" ++ lvl ++ lit "]"; message]).
Proof.
  apply (formatTimestamp_fixed_width 9 5 0 42); reflexivity.
Defined.

Example formatTimestamp_sample :
  formatTimestamp 9 5 0 42 = lit "09:05:00.042"
  /\ formatTimestamp 23 59 59 999 = lit "23:59:59.999".
Proof. split; reflexivity. Qed.

Example Logger_new_samples :
  level (Logger_new (fun _ => false) (Some (lit "DEBUG"))) =
    Level LogLevel.INFO
  /\ level (Logger_new (fun _ => false) None) = Level LogLevel.INFO
  /\ level (Logger_new (fun _ => false) (Some (lit "ERROR"))) =
     Level LogLevel.ERROR
  /\ level (Logger_new (fun _ => false) (Some (lit "0"))) =
     Name (lit "DEBUG").
Proof. repeat split; reflexivity. Qed.

Section InspectorExamples.

Import Inspector.

Local Abbreviation pick :=
  (pickDeepString Samples.has_property Samples.get_property
     Samples.number_truthy).
Local Abbreviation extract :=
  (extractContentText Samples.has_property Samples.get_property
     Samples.number_truthy).
Local Abbreviation derive :=
  (deriveConversationEntry Samples.has_property Samples.get_property
     Samples.toLowerCase Samples.JSON_stringify Samples.number_truthy
     decimal).

Example derive_tool_event :
  derive Samples.tool_event =
  Ok (Some {| entry_id := lit "7";
              actor := actor_tool;
              title := literal "툴 호출 · " ++ lit "run_query";
              body := lit "rows: 3" ++ [NL; NL] ++ lit "done";
              entry_timestamp := 1700000000%N;
              badges := [lit "running"; lit "remote"; lit "tool"];
              raw := Samples.tool_payload |}).
Proof. reflexivity. Qed.

Lemma pickDeepString_first_nonblank_witness :
  lit "running" <> []
  /\ trim (lit "running") = lit "running"
  /\ exists before path after raw,
       status_paths = before ++ path :: after
       /\ Forall
            (fun p =>
               nonblank_string
                 (walk Samples.has_property Samples.get_property
                    Samples.number_truthy Samples.tool_payload p) = None)
            before
       /\ walk Samples.has_property Samples.get_property
            Samples.number_truthy Samples.tool_payload path = VString raw
       /\ lit "running" = trim raw.
Proof.
  apply (proj1 (pickDeepString_first_nonblank Samples.has_property
                  Samples.get_property Samples.number_truthy
                  Samples.tool_payload status_paths)).
  reflexivity.
Defined.

Lemma extractContentText_is_trimmed_witness :
  lit "rows: 3" ++ [NL; NL] ++ lit "done" <> []
  /\ trim (lit "rows: 3" ++ [NL; NL] ++ lit "done") =
     lit "rows: 3" ++ [NL; NL] ++ lit "done".
Proof.
  apply (extractContentText_is_trimmed Samples.has_property
           Samples.get_property Samples.number_truthy Samples.tool_payload).
  reflexivity.
Defined.

Lemma stringifyFallback_is_bounded_witness :
  length (stringifyFallback Samples.JSON_stringify Samples.tool_payload)
    <= MAX_BODY_LENGTH + 1
  /\ stringifyFallback Samples.JSON_stringify Samples.tool_payload = lit "{}".
Proof.
  destruct (stringifyFallback_is_bounded Samples.JSON_stringify
              Samples.tool_payload) as [Hbound Hsame].
  split; [exact Hbound|].
  apply (Hsame (lit "{}")); [reflexivity | unfold MAX_BODY_LENGTH; simpl; lia].
Defined.

Lemma deriveConversationEntry_body_witness :
  derive {| sequence := 1%N; event_name := lit "run.status";
            payload := VNull; event_timestamp := 0%N |} = Ok None
  /\ exists entry,
       derive Samples.bare_event = Ok (Some entry)
       /\ body entry =
          match extract (payload Samples.bare_event) with
          | Ok (Some t) => t
          | _ => stringifyFallback Samples.JSON_stringify
                   (payload Samples.bare_event)
          end
       /\ entry_id entry = decimal (sequence Samples.bare_event)
       /\ entry_timestamp entry = event_timestamp Samples.bare_event
       /\ raw entry = payload Samples.bare_event.
Proof.
  split.
  - apply (proj1 (deriveConversationEntry_body Samples.has_property
                    Samples.get_property Samples.toLowerCase
                    Samples.JSON_stringify Samples.number_truthy decimal _)).
    discriminate.
  - apply (proj2 (deriveConversationEntry_body Samples.has_property
                    Samples.get_property Samples.toLowerCase
                    Samples.JSON_stringify Samples.number_truthy decimal
                    Samples.bare_event)); reflexivity.
Defined.

End InspectorExamples.

Section MoreInspectorExamples.

Import Inspector.

Local Abbreviation pick :=
  (pickDeepString Samples.has_property Samples.get_property
     Samples.number_truthy).

Lemma deriveConversationEntry_actor_witness :
  (actor_unknown, lit "adk.event") =
    actor_by_author (event_name Samples.bare_event)
      (author_of Samples.get_property Samples.toLowerCase
         (payload Samples.bare_event))
      (pick (payload Samples.bare_event) remoteAgent_paths)
      (pick (payload Samples.bare_event) toolName_paths)
  /\ (actor_unknown = actor_unknown <->
      is_author (author_of Samples.get_property Samples.toLowerCase
                   (payload Samples.bare_event)) "user" = false
      /\ is_author (author_of Samples.get_property Samples.toLowerCase
                      (payload Samples.bare_event)) "agent" = false
      /\ is_author (author_of Samples.get_property Samples.toLowerCase
                      (payload Samples.bare_event)) "assistant" = false
      /\ is_author (author_of Samples.get_property Samples.toLowerCase
                      (payload Samples.bare_event)) "tool" = false
      /\ is_author (author_of Samples.get_property Samples.toLowerCase
                      (payload Samples.bare_event)) "system" = false
      /\ pick (payload Samples.bare_event) remoteAgent_paths = None
      /\ pick (payload Samples.bare_event) toolName_paths = None).
Proof.
  apply (deriveConversationEntry_actor Samples.has_property
           Samples.get_property Samples.toLowerCase Samples.JSON_stringify
           Samples.number_truthy decimal Samples.bare_event
           {| entry_id := lit "8";
              actor := actor_unknown;
              title := lit "adk.event";
              body := lit "{}";
              entry_timestamp := 1700000001%N;
              badges := [lit "turn-complete"];
              raw := payload Samples.bare_event |}).
  reflexivity.
Defined.

Lemma entry_badges_are_not_repeated_witness :
  let badges :=
    entry_badges Samples.has_property Samples.get_property
      Samples.number_truthy
      (VObject [(lit "status", VString (lit "remote"))])
      (Some (lit "bq")) None in
  badges = [lit "remote"]
  /\ length badges <= 4
  /\ (given (Some (lit "bq")) = true -> includes badges (lit "remote") = true)
  /\ (given None = true -> includes badges (lit "tool") = true)
  /\ length (filter (str_eqb (lit "remote")) badges) <= 1
  /\ length (filter (str_eqb (lit "tool")) badges) <= 1.
Proof.
  intros badges; split; [reflexivity|].
  apply (entry_badges_are_not_repeated Samples.has_property
           Samples.get_property Samples.number_truthy
           (VObject [(lit "status", VString (lit "remote"))])
           (Some (lit "bq")) None).
Defined.

Lemma getAgents_returns_valid_agents_witness :
  Api.getAgents Samples.get_property Samples.toLowerCase
    Samples.agents_response =
  [{| Api.metadata :=
        {| Api.key := lit "divorce_case";
           Api.display_name := lit "Case agent";
           Api.description := lit "Reads evidence";
           Api.focus := lit "law";
           Api.strengths := Some [lit "fast"];
           Api.keywords := None |};
      Api.active := true |}]
  /\ length (Api.getAgents Samples.get_property Samples.toLowerCase
               Samples.agents_response) <= 3
  /\ Api.getAgents Samples.get_property Samples.toLowerCase (VNull (number := N)) = [].
Proof.
  destruct (getAgents_returns_valid_agents Samples.get_property
              Samples.toLowerCase Samples.agents_response)
    as (_ & Hlen & _).
  destruct (getAgents_returns_valid_agents Samples.get_property
              Samples.toLowerCase (VNull (number := N)))
    as (_ & _ & Hnone).
  split; [reflexivity|].
  split; [exact (Hlen _ eq_refl) | apply Hnone; discriminate].
Defined.

End MoreInspectorExamples.

(* ------------------------------------------------------------------ *)
(** ** The two [describeSqlMode] *)

(** X19.  The [describeSqlMode] of App.tsx, a lookup in a table, and the
    one of the agent identity component, a [switch], give the same label
    for every mode, [null], [undefined] and the empty string included, as
    long as nothing a plain object inherits has a [label]. *)
Theorem describeSqlMode_variants_agree (inherited_label : str -> option str)
    (mode : option str) :
  (forall k, inherited_label k = None) ->
  SqlMode.describeSqlMode_presets inherited_label mode =
  SqlMode.describeSqlMode_switch mode.
Proof.
  intros Hplain.
  unfold SqlMode.describeSqlMode_presets, SqlMode.describeSqlMode_switch,
    SqlMode.preset_label.
  destruct mode as [m|]; [|reflexivity].
  destruct m as [|c m]; [reflexivity|].
  cbn [truthy negb].
  destruct (str_eqb (c :: m) (lit "schema_aware")); [reflexivity|].
  destruct (str_eqb (c :: m) (lit "template")); [reflexivity|].
  destruct (str_eqb (c :: m) (lit "adk")); [reflexivity|].
  now rewrite Hplain.
Qed.

Lemma describeSqlMode_variants_agree_witness :
  SqlMode.describeSqlMode_presets (fun _ => None) (Some (lit "adk")) =
  SqlMode.describeSqlMode_switch (Some (lit "adk")).
Proof.
  apply (describeSqlMode_variants_agree (fun _ => None) (Some (lit "adk"))).
  reflexivity.
Defined.
